(** * Hook layer of nextjs-shadcn-base: optimistic mutations, pagination, sockets

    A shallow embedding of three hooks of the repository,

    - [src/hooks/react-query/useOptimisticMutation.tsx],
    - [usePagination] (the paginated [useQuery] wrapper),
    - [useSocket] (the socket.io channel binding),

    together with the fragment of the two libraries they call
    ([@tanstack/react-query]'s [QueryClient] and socket.io's event emitter).
    JavaScript objects live in a heap and are passed by reference, so that
    what the hooks do to shared objects is visible in the model.

    The smaller hooks of the repository follow: [useToggle], [useDebounce],
    [useArray], [useStateWithHistory], [usePrevious], [useUpdateEffect] and
    [useStorage]. *)

From stdpp Require Import gmap strings list fin_maps.
From Stdlib Require Import ZArith.

Open Scope Z_scope.

(** ** JavaScript values *)

Module Js.

(** Objects are heap-allocated; a value of object type is a reference. *)
Abbreviation loc := nat (only parsing).

Inductive JsValue :=
| JUndefined
| JNull
| JBool (b : bool)
| JNum (n : Z)
| JStr (s : string)
| JRef (l : loc).

#[global] Instance JsValue_eq_dec : EqDecision JsValue.
Proof. solve_decision. Defined.

(** An object is a finite map from property names to values. *)
Abbreviation JsObject := (gmap string JsValue) (only parsing).
Abbreviation Heap := (gmap loc (gmap string JsValue)) (only parsing).

(** [v !== null] *)
Definition strict_neq_null (v : JsValue) : bool :=
  match v with
  | JNull => false
  | _ => true
  end.

(** ToBoolean *)
Definition truthy (v : JsValue) : bool :=
  match v with
  | JUndefined | JNull => false
  | JBool b => b
  | JNum n => negb (n =? 0)
  | JStr s => negb (String.eqb s "")
  | JRef _ => true
  end.

(** [a || b] *)
Definition js_or (a b : JsValue) : JsValue :=
  if truthy a then a else b.

(** What a reader sees when looking at a value: a primitive, or the
    properties of the object it refers to (one level deep; nested
    objects are compared by identity). *)
Inductive Structure :=
| SPrim (v : JsValue)
| SObj (o : gmap string JsValue)
| SDangling.

Definition structureOf (h : Heap) (v : JsValue) : Structure :=
  match v with
  | JRef l =>
      match h !! l with
      | Some o => SObj o
      | None => SDangling
      end
  | _ => SPrim v
  end.

End Js.
Export Js.

(** ** The query client of @tanstack/react-query (library fragment) *)

Module QueryClient.

(** A query key is an array of serialisable parts. *)
Inductive KeyPart :=
| KStr (s : string)
| KNum (n : Z).

#[global] Instance KeyPart_eq_dec : EqDecision KeyPart.
Proof. solve_decision. Defined.

#[global] Instance KeyPart_countable : Countable KeyPart.
Proof.
  refine (inj_countable'
            (fun k => match k with KStr s => inl s | KNum n => inr n end)
            (fun x => match x with inl s => KStr s | inr n => KNum n end) _).
  by intros [].
Defined.

Abbreviation QueryKey := (list KeyPart) (only parsing).

(** The state the library keeps per query: the cached data (a reference
    when the data is an object, [JUndefined] when there is none), the
    number of data updates, the invalidation flag and the promise of the
    fetch in flight, if any. *)
Record Query := mkQuery {
  q_data : JsValue;
  q_dataUpdateCount : nat;
  q_isInvalidated : bool;
  q_promise : option nat;
}.

Definition emptyQuery : Query :=
  {| q_data := JUndefined; q_dataUpdateCount := 0%nat;
     q_isInvalidated := false; q_promise := None |}.

(** What the hooks and the library do, in order. *)
Inductive Event :=
| EvCancelQueries (k : QueryKey)
| EvGetQueryData (k : QueryKey)
| EvOptimisticUpdate (state : JsValue)
| EvMutationFn (variables : JsValue)
| EvSetQueryData (k : QueryKey) (d : JsValue)
| EvInvalidateQueries (k : QueryKey)
| EvOnSuccess (data : JsValue)
| EvOnError (error : JsValue)
| EvQueryFn (k : QueryKey) (pageIndex pageSize : Z).

#[global] Instance Event_eq_dec : EqDecision Event.
Proof. solve_decision. Defined.

(** The world a hook runs in: the JavaScript heap, the query cache, the
    next free promise handle and the trace of what happened. *)
Record World := mkWorld {
  heap : gmap loc (gmap string JsValue);
  queries : gmap (list KeyPart) Query;
  nextPromise : nat;
  trace : list Event;
}.

Definition setHeap (h : Heap) (w : World) : World :=
  {| heap := h; queries := queries w; nextPromise := nextPromise w; trace := trace w |}.
Definition setQueries (qs : gmap (list KeyPart) Query) (w : World) : World :=
  {| heap := heap w; queries := qs; nextPromise := nextPromise w; trace := trace w |}.
Definition setNextPromise (n : nat) (w : World) : World :=
  {| heap := heap w; queries := queries w; nextPromise := n; trace := trace w |}.
Definition setTrace (t : list Event) (w : World) : World :=
  {| heap := heap w; queries := queries w; nextPromise := nextPromise w; trace := t |}.

(** Code that reads and writes the world. *)
Definition M (A : Type) : Type := World -> A * World.

Definition ret {A : Type} (a : A) : M A := fun w => (a, w).

Definition bind {A B : Type} (m : M A) (f : A -> M B) : M B :=
  fun w => let '(a, w') := m w in f a w'.

Notation "'let*' x ':=' m 'in' k" := (bind m (fun x => k))
  (at level 10, x name, m at level 200, k at level 200).
Notation "m >> k" := (bind m (fun _ => k))
  (at level 90, right associativity).

Definition log (e : Event) : M unit :=
  fun w => (tt, setTrace (trace w ++ [e]) w).

(** Filters such as [{ queryKey }] match every query whose key starts with
    the given key. *)
Definition matchesKey (filter k : QueryKey) : bool :=
  bool_decide (filter `prefix_of` k).

Definition lookupQuery (k : QueryKey) (w : World) : Query :=
  default emptyQuery (queries w !! k).

(** [queryClient.getQueryData(key)]: the cached data itself, not a copy. *)
Definition getQueryData (k : QueryKey) : M JsValue :=
  log (EvGetQueryData k) >>
  fun w => (q_data (lookupQuery k w), w).

(** [queryClient.setQueryData(key, data)]: [undefined] is ignored; any
    other value becomes the cached data, counts as one data update and
    clears the invalidation flag. *)
Definition setQueryData (k : QueryKey) (d : JsValue) : M unit :=
  log (EvSetQueryData k d) >>
  fun w =>
    match d with
    | JUndefined => (tt, w)
    | _ =>
        let q := lookupQuery k w in
        (tt, setQueries
               (<[k := {| q_data := d;
                          q_dataUpdateCount := S (q_dataUpdateCount q);
                          q_isInvalidated := false;
                          q_promise := q_promise q |}]> (queries w)) w)
    end.

(** [queryClient.invalidateQueries({ queryKey })]: marks the matching
    queries as invalidated, which makes their observers refetch. *)
Definition invalidateQueries (k : QueryKey) : M unit :=
  log (EvInvalidateQueries k) >>
  fun w =>
    (tt, setQueries
           (map_imap (fun k' q =>
              Some (if matchesKey k k'
                    then {| q_data := q_data q;
                            q_dataUpdateCount := q_dataUpdateCount q;
                            q_isInvalidated := true;
                            q_promise := q_promise q |}
                    else q)) (queries w)) w).

(** [queryClient.cancelQueries({ queryKey })]: drops the fetches in flight
    for the matching queries; their data stays as it was. *)
Definition cancelQueries (k : QueryKey) : M unit :=
  log (EvCancelQueries k) >>
  fun w =>
    (tt, setQueries
           (map_imap (fun k' q =>
              Some (if matchesKey k k'
                    then {| q_data := q_data q;
                            q_dataUpdateCount := q_dataUpdateCount q;
                            q_isInvalidated := q_isInvalidated q;
                            q_promise := None |}
                    else q)) (queries w)) w).

(** How a promise settles. *)
Inductive Outcome :=
| Resolved (data : JsValue)
| Rejected (error : JsValue).

End QueryClient.
Export QueryClient.

(** ** useOptimisticMutation *)

Module UseOptimisticMutation.

(** The props of the hook.  [optimisticUpdateFn] returns nothing: it
    changes the object passed as [state] in place, so it is given here by
    what it does to the properties of that object.  The remote
    [mutationFn] is given by how its promise settles.  The two callbacks
    are the caller's code; what matters to the hook is whether they were
    passed. *)
Record UseOptimisticMutationProps := {
  state : JsValue;
  mutationFn : JsValue -> Outcome;
  optimisticUpdateFn : gmap string JsValue -> JsValue -> gmap string JsValue;
  queryKey : list KeyPart;
  onError : bool;
  onSuccess : bool;
  shouldRefetchQuery : option bool;
}.

(** The context [onMutate] hands to the later callbacks. *)
Record Context := { previousState : JsValue }.

Section Hook.

Variable props : UseOptimisticMutationProps.

(** [optimisticUpdateFn(state, variables)]: a call with a reference
    rewrites the object behind it; a primitive is passed by value and
    nothing the callee does to it is seen outside. *)
Definition callOptimisticUpdateFn (variables : JsValue) : M unit :=
  log (EvOptimisticUpdate (state props)) >>
  fun w =>
    match state props with
    | JRef l =>
        (tt, setHeap (alter (fun o => optimisticUpdateFn props o variables) l (heap w)) w)
    | _ => (tt, w)
    end.

Definition callMutationFn (variables : JsValue) : M Outcome :=
  log (EvMutationFn variables) >>
  ret (mutationFn props variables).

(** The options the hook passes to [useMutation].  They carry the prefix
    [opt_] because [onError] and [onSuccess] are also the names of two
    props. *)

(** [onMutate] *)
Definition opt_onMutate (variables : JsValue) : M Context :=
  cancelQueries (queryKey props) >>
  let* previousState := getQueryData (queryKey props) in
  callOptimisticUpdateFn variables >>
  ret {| previousState := previousState |}.

(** [onError]; [context?.previousState] is [undefined] without a context. *)
Definition opt_onError (error variables : JsValue) (context : option Context) : M unit :=
  setQueryData (queryKey props)
    (match context with Some c => previousState c | None => JUndefined end) >>
  if onError props then log (EvOnError error) else ret tt.

(** [onSettled]; [shouldRefetchQuery] defaults to [true]. *)
Definition opt_onSettled : M unit :=
  if default true (shouldRefetchQuery props)
  then invalidateQueries (queryKey props)
  else ret tt.

(** [onSuccess] *)
Definition opt_onSuccess (data : JsValue) : M unit :=
  if onSuccess props then log (EvOnSuccess data) else ret tt.

(** What [useMutation] does with these options when [mutate(variables)]
    is called: [onMutate], then the mutation function, then [onSuccess] or
    [onError] by the way it settled, then [onSettled] in both cases. *)
Definition settle (variables : JsValue) (context : Context) (r : Outcome) : M Outcome :=
  match r with
  | Resolved data =>
      opt_onSuccess data >> opt_onSettled >> ret r
  | Rejected error =>
      opt_onError error variables (Some context) >> opt_onSettled >> ret r
  end.

Definition mutate (variables : JsValue) : M Outcome :=
  let* context := opt_onMutate variables in
  let* r := callMutationFn variables in
  settle variables context r.

End Hook.

(** What a reader of the cache sees under a key. *)
Definition cachedValue (k : list KeyPart) (w : World) : Structure :=
  structureOf (heap w) (q_data (lookupQuery k w)).

(** The number of data updates the cache has recorded for a key. *)
Definition revision (k : list KeyPart) (w : World) : nat :=
  q_dataUpdateCount (lookupQuery k w).

End UseOptimisticMutation.

(** ** usePagination *)

Module UsePagination.

(** Modelled from the spec: the type [IResponseData] of [~/types/api/general]
    is imported by the hook but not part of the sources; a response carries
    the page of data and, optionally, paging metadata of shape
    [{totalItems, totalPages, hasNextPage, hasPreviousPage}].  The fields are
    JavaScript values, as a server may send [null] for any of them. *)
Record Paging := {
  totalItems : JsValue;
  totalPages : JsValue;
  hasNextPage : JsValue;
  hasPreviousPage : JsValue;
}.

Record IResponseData := {
  data : JsValue;
  paging : option Paging;
}.

Inductive PlaceholderData :=
| KeepPreviousData.

(** The options of [useQuery] the hook deals with. *)
Record UseQueryOptions := {
  o_queryKey : list KeyPart;
  o_queryFn : Z * Z;
  o_placeholderData : option PlaceholderData;
  o_enabled : bool;
  o_staleTime : option Z;
}.

(** [Omit<UseQueryOptions<T>, "queryKey" | "queryFn" | "enabled">]; a field
    is [None] when the caller did not set it. *)
Record QueryFilters := {
  f_placeholderData : option (option PlaceholderData);
  f_staleTime : option (option Z);
}.

(** [{ ...defaultOptions, ...queryFilters }] *)
Definition mergeQueryOptions (defaultOptions : UseQueryOptions)
    (queryFilters : option QueryFilters) : UseQueryOptions :=
  match queryFilters with
  | None => defaultOptions
  | Some f =>
      {| o_queryKey := o_queryKey defaultOptions;
         o_queryFn := o_queryFn defaultOptions;
         o_placeholderData :=
           default (o_placeholderData defaultOptions) (f_placeholderData f);
         o_enabled := o_enabled defaultOptions;
         o_staleTime := default (o_staleTime defaultOptions) (f_staleTime f) |}
  end.

Record UsePaginationProps := {
  queryKey : list KeyPart;
  initialPageSize : option Z;
  queryFilters : option QueryFilters;
  enabled : option bool;
}.

(** The two [useState] cells of the hook. *)
Record State := {
  pageSize : Z;
  pageIndex : Z;
}.

(** [useState(initialPageSize || 10)] and [useState(0)] *)
Definition initialState (props : UsePaginationProps) : State :=
  {| pageSize :=
       match initialPageSize props with
       | Some n => if n =? 0 then 10 else n
       | None => 10
       end;
     pageIndex := 0 |}.

(** A state setter of React takes the new value or a function of the
    current one. *)
Inductive SetStateAction :=
| NewValue (n : Z)
| Updater (f : Z -> Z).

Definition applyAction (a : SetStateAction) (current : Z) : Z :=
  match a with
  | NewValue n => n
  | Updater f => f current
  end.

(** [setPageIndex] and [setPageSize] are the setters of [useState] as they
    are. *)
Definition setPageIndex (a : SetStateAction) (st : State) : State :=
  {| pageSize := pageSize st; pageIndex := applyAction a (pageIndex st) |}.

Definition setPageSize (a : SetStateAction) (st : State) : State :=
  {| pageSize := applyAction a (pageSize st); pageIndex := pageIndex st |}.

Definition defaultOptions (props : UsePaginationProps) (st : State) : UseQueryOptions :=
  {| o_queryKey := queryKey props ++ [KNum (pageIndex st); KNum (pageSize st)];
     o_queryFn := (pageIndex st, pageSize st);
     o_placeholderData := Some KeepPreviousData;
     o_enabled := (pageIndex st >? -1) && default true (enabled props);
     o_staleTime := None |}.

(** Data counts as stale when there is none, when the query was
    invalidated, or when no positive [staleTime] was asked for. *)
Definition isStale (o : UseQueryOptions) (q : Query) : bool :=
  match q_data q with
  | JUndefined => true
  | _ =>
      q_isInvalidated q ||
      match o_staleTime o with
      | Some t => t <=? 0
      | None => true
      end
  end.

(** [useQuery(options)] when an observer starts to watch the query
    (library): a fetch in flight for the key is joined; otherwise an enabled
    observer of stale data calls the query function.  The result is the
    promise the observer waits on, if any. *)
Definition useQuery (o : UseQueryOptions) : M (option nat) :=
  fun w =>
    let q := lookupQuery (o_queryKey o) w in
    match q_promise q with
    | Some p => (Some p, w)
    | None =>
        if o_enabled o && isStale o q
        then
          let p := nextPromise w in
          (Some p,
           setNextPromise (S p)
             (setQueries
                (<[o_queryKey o := {| q_data := q_data q;
                                      q_dataUpdateCount := q_dataUpdateCount q;
                                      q_isInvalidated := q_isInvalidated q;
                                      q_promise := Some p |}]> (queries w))
                (setTrace
                   (trace w ++ [EvQueryFn (o_queryKey o) (o_queryFn o).1 (o_queryFn o).2])
                   w)))
        else (None, w)
    end.

(** The query the hook asks for on a render. *)
Definition query (props : UsePaginationProps) (st : State) : M (option nat) :=
  useQuery (mergeQueryOptions (defaultOptions props st) (queryFilters props)).

(** What [useQuery] reports back to the hook. *)
Record UseQueryResult := {
  q_response : option IResponseData;
  q_isFetching : bool;
  q_isLoading : bool;
}.

(** What the hook returns. *)
Record UsePaginationResult := {
  r_data : JsValue;
  r_isLoading : bool;
  r_pageIndex : Z;
  r_pageSize : Z;
  r_total : JsValue;
  r_isFetching : bool;
  r_hasNextPage : bool;
  r_hasPreviousPage : bool;
  r_totalPages : JsValue;
}.

(** [data?.paging?.field] *)
Definition pagingField (field : Paging -> JsValue) (d : option IResponseData) : JsValue :=
  match d with
  | Some r =>
      match paging r with
      | Some p => field p
      | None => JUndefined
      end
  | None => JUndefined
  end.

Definition usePagination (st : State) (q : UseQueryResult) : UsePaginationResult :=
  {| r_data := match q_response q with Some r => data r | None => JUndefined end;
     r_isLoading := q_isLoading q;
     r_pageIndex := pageIndex st;
     r_pageSize := pageSize st;
     r_total := pagingField totalItems (q_response q);
     r_isFetching := q_isFetching q;
     r_hasNextPage := strict_neq_null (pagingField hasNextPage (q_response q));
     r_hasPreviousPage :=
       strict_neq_null (pagingField hasPreviousPage (q_response q)) || false;
     r_totalPages := js_or (pagingField totalPages (q_response q)) (JNum 0) |}.

(** The result once a fetch has resolved with [r]. *)
Definition afterFetch (st : State) (r : IResponseData) : UsePaginationResult :=
  usePagination st {| q_response := Some r; q_isFetching := false; q_isLoading := false |}.

(** Several components rendering the hook with the same key and window,
    one after the other, before any fetch resolves. *)
Fixpoint queryAll (callers : list UsePaginationProps) (st : State) : M (list (option nat)) :=
  match callers with
  | [] => ret []
  | c :: cs =>
      let* r := query c st in
      let* rs := queryAll cs st in
      ret (r :: rs)
  end.

(** How often the query function ran for a key. *)
Definition isQueryFn (k : list KeyPart) (e : Event) : bool :=
  match e with
  | EvQueryFn k' _ _ => bool_decide (k' = k)
  | _ => false
  end.

Definition fetchCount (k : list KeyPart) (t : list Event) : nat :=
  length (List.filter (isQueryFn k) t).

End UsePagination.

(** ** useSocket *)

Module UseSocket.

(** A listener is a function; two listeners are the same when they are the
    same function.  The hook installs two of its own, which set
    [isConnected]; the others are the caller's. *)
Inductive Handler :=
| SetIsConnected (b : bool)
| Callback (id : nat).

#[global] Instance Handler_eq_dec : EqDecision Handler.
Proof. solve_decision. Defined.

(** The socket.io client socket (library): its connection flags, the
    listeners per event in the order they were added, and what was
    emitted. *)
Record Socket := {
  connected : bool;
  active : bool;
  callbacks : gmap string (list Handler);
  emitted : list (string * list JsValue);
}.

Inductive Result (A : Type) :=
| Ok (a : A)
| Throw (message : string).
Arguments Ok {A} a.
Arguments Throw {A} message.

(** [io(url, options)]: a fresh socket that starts to connect. *)
Definition io (url : string) : Socket :=
  {| connected := false; active := true; callbacks := ∅; emitted := [] |}.

(** [socket.on(event, fn)] adds [fn] after the listeners already there. *)
Definition socket_on (event : string) (fn : Handler) (s : Socket) : Socket :=
  {| connected := connected s; active := active s;
     callbacks := <[event := default [] (callbacks s !! event) ++ [fn]]> (callbacks s);
     emitted := emitted s |}.

(** [socket.off(event)], with the event name alone, removes every listener
    of that event. *)
Definition socket_off (event : string) (s : Socket) : Socket :=
  {| connected := connected s; active := active s;
     callbacks := delete event (callbacks s);
     emitted := emitted s |}.

Definition RESERVED_EVENTS : list string :=
  ["connect"; "connect_error"; "disconnect"; "disconnecting";
   "newListener"; "removeListener"]%string.

(** [socket.emit(event, ...args)] refuses the reserved event names. *)
Definition socket_emit (event : string) (args : list JsValue) (s : Socket) : Result Socket :=
  if bool_decide (event ∈ RESERVED_EVENTS)
  then Throw (event +:+ " is a reserved event name")
  else Ok {| connected := connected s; active := active s;
             callbacks := callbacks s;
             emitted := emitted s ++ [(event, args)] |}.

(** [socket.connect()] *)
Definition socket_connect (s : Socket) : Socket :=
  if connected s then s
  else {| connected := connected s; active := true;
          callbacks := callbacks s; emitted := emitted s |}.

(** [socket.disconnect()] *)
Definition socket_disconnect (s : Socket) : Socket :=
  {| connected := false; active := false;
     callbacks := callbacks s; emitted := emitted s |}.

(** The state of the hook: the ref holding the socket, and two state
    cells. *)
Record HookState := {
  socketRef : option Socket;
  isConnected : bool;
  eventData : gmap string JsValue;
}.

(** Before the effect has run. *)
Definition initialState : HookState :=
  {| socketRef := None; isConnected := false; eventData := ∅ |}.

(** The effect: create the socket and listen to its connection events. *)
Definition effect (url : string) (st : HookState) : HookState :=
  {| socketRef :=
       Some (socket_on "disconnect" (SetIsConnected false)
               (socket_on "connect" (SetIsConnected true) (io url)));
     isConnected := isConnected st;
     eventData := eventData st |}.

(** The clean-up of the effect. *)
Definition cleanup (st : HookState) : HookState :=
  match socketRef st with
  | Some s =>
      {| socketRef := Some (socket_disconnect s);
         isConnected := isConnected st; eventData := eventData st |}
  | None => st
  end.

Definition emit (event : string) (args : list JsValue) (st : HookState) : Result HookState :=
  match socketRef st with
  | Some s =>
      match socket_emit event args s with
      | Ok s' => Ok {| socketRef := Some s'; isConnected := isConnected st;
                       eventData := eventData st |}
      | Throw m => Throw m
      end
  | None => Ok st
  end.

Definition on (event : string) (callback : Handler) (st : HookState) : Result HookState :=
  match socketRef st with
  | Some s =>
      Ok {| socketRef := Some (socket_on event callback s);
            isConnected := isConnected st; eventData := eventData st |}
  | None => Ok st
  end.

Definition off (event : string) (st : HookState) : Result HookState :=
  match socketRef st with
  | Some s =>
      Ok {| socketRef := Some (socket_off event s);
            isConnected := isConnected st; eventData := eventData st |}
  | None => Ok st
  end.

Definition reconnect (st : HookState) : Result HookState :=
  match socketRef st with
  | Some s =>
      Ok {| socketRef := Some (socket_connect s);
            isConnected := isConnected st; eventData := eventData st |}
  | None => Ok st
  end.

(** The listeners registered for an event. *)
Definition registered (event : string) (st : HookState) : list Handler :=
  match socketRef st with
  | Some s => default [] (callbacks s !! event)
  | None => []
  end.

(** Calls one after the other, stopping at the first that throws. *)
Definition andThen {A B : Type} (r : Result A) (f : A -> Result B) : Result B :=
  match r with
  | Ok a => f a
  | Throw m => Throw m
  end.

End UseSocket.

(** ** Observations used in the statements *)

Module MutationScenario.
Import UseOptimisticMutation.

(** The heap once [optimisticUpdateFn] has run. *)
Definition updatedHeap (p : UseOptimisticMutationProps) (variables : JsValue)
    (w : World) : gmap nat (gmap string JsValue) :=
  match state p with
  | JRef l => alter (fun o => optimisticUpdateFn p o variables) l (heap w)
  | _ => heap w
  end.

(** The events that follow the call of the mutation function. *)
Definition settleEvents (p : UseOptimisticMutationProps) (variables : JsValue)
    (w : World) : list Event :=
  match mutationFn p variables with
  | Resolved data =>
      (if onSuccess p then [EvOnSuccess data] else []) ++
      (if default true (shouldRefetchQuery p)
       then [EvInvalidateQueries (queryKey p)] else [])
  | Rejected error =>
      [EvSetQueryData (queryKey p) (q_data (lookupQuery (queryKey p) w))] ++
      (if onError p then [EvOnError error] else []) ++
      (if default true (shouldRefetchQuery p)
       then [EvInvalidateQueries (queryKey p)] else [])
  end.

(** The events a call of [mutate] adds to the trace. *)
Definition newEvents (p : UseOptimisticMutationProps) (variables : JsValue)
    (w : World) : list Event :=
  drop (length (trace w)) (trace (mutate p variables w).2).

(** The entry [todo:1] holds [{title: "A", done: false}]; the object at 2
    is a copy of it, the object at 3 the variables [{id: 1, done: true}]. *)
Definition todoKey : list KeyPart := [KStr "todo"; KNum 1].

Definition todoA : gmap string JsValue :=
  {[ "title" := JStr "A"; "done" := JBool false ]}.

Definition world0 : World :=
  {| heap := {[ 1%nat := todoA; 2%nat := todoA;
                3%nat := {[ "id" := JNum 1; "done" := JBool true ]} ]};
     queries := {[ todoKey := {| q_data := JRef 1; q_dataUpdateCount := 1;
                                 q_isInvalidated := false; q_promise := None |} ]};
     nextPromise := 0;
     trace := [] |}.

Definition variables1 : JsValue := JRef 3.

(** The optimistic update sets [done]. *)
Definition setDone (o : gmap string JsValue) (variables : JsValue) : gmap string JsValue :=
  <["done" := JBool true]> o.

(** The component passes the data it got from the cache as [state], and
    the server rejects the mutation. *)
Definition failingTodo : UseOptimisticMutationProps :=
  {| state := JRef 1;
     mutationFn := fun _ => Rejected (JStr "500");
     optimisticUpdateFn := setDone;
     queryKey := todoKey;
     onError := false;
     onSuccess := false;
     shouldRefetchQuery := None |}.

(** The component passes a copy of the cached data as [state]. *)
Definition copiedTodo : UseOptimisticMutationProps :=
  {| state := JRef 2;
     mutationFn := fun _ => Resolved JNull;
     optimisticUpdateFn := setDone;
     queryKey := todoKey;
     onError := false;
     onSuccess := false;
     shouldRefetchQuery := None |}.

(** A property of what the cache shows under a key. *)
Definition cachedProp (k : list KeyPart) (name : string) (w : World) : JsValue :=
  match cachedValue k w with
  | SObj o => default JUndefined (o !! name)
  | _ => JUndefined
  end.

End MutationScenario.

Module PaginationScenario.
Import UsePagination.

(** The key of the query for a window. *)
Definition windowKey (props : UsePaginationProps) (st : State) : list KeyPart :=
  queryKey props ++ [KNum (pageIndex st); KNum (pageSize st)].

Definition usersProps : UsePaginationProps :=
  {| queryKey := [KStr "users"]; initialPageSize := None;
     queryFilters := None; enabled := None |}.

Definition emptyWorld : World :=
  {| heap := ∅; queries := ∅; nextPromise := 0; trace := [] |}.

(** The last of three pages of 25 users, ten to a page. *)
Definition lastPage : IResponseData :=
  {| data := JRef 7;
     paging := Some {| totalItems := JNum 25; totalPages := JNum 3;
                       hasNextPage := JBool false; hasPreviousPage := JBool true |} |}.

End PaginationScenario.

Module SocketScenario.
Import UseSocket.

(** The hook after its effect has run. *)
Definition mounted : HookState := effect "ws://localhost" initialState.

(** [on(e, h1); on(e, h2); off(e)] for the event [message]. *)
Definition onOnOff : Result HookState :=
  andThen (on "message" (Callback 1) mounted) (fun st1 =>
  andThen (on "message" (Callback 2) st1) (fun st2 =>
  off "message" st2)).

End SocketScenario.

(** ** useToggle *)

Module UseToggle.

(** [toggleValue(newValue?)]: the updater passed to [setValue].  The
    argument is whatever the caller passes, a boolean or not. *)
Definition toggleValue (newValue : JsValue) (currentValue : bool) : bool :=
  match newValue with
  | JBool b => b
  | _ => negb currentValue
  end.

End UseToggle.

(** ** useDebounce *)

Module UseDebounce.

(** The state cell of the hook, the dependencies of the last run of its
    effect and the timeout that effect left pending, with its delay and
    the value it will store. *)
Record State := {
  debouncedValue : JsValue;
  deps : option (JsValue * JsValue);
  timer : option (JsValue * JsValue);
}.

(** [useState(value)] on the first render, before the effect. *)
Definition initialState (value : JsValue) : State :=
  {| debouncedValue := value; deps := None; timer := None |}.

(** A render with [value] and [delay].  When one of them changed, the
    clean-up of the previous effect clears its timeout and the effect sets
    a new one after [delay || 500]. *)
Definition render (value delay : JsValue) (st : State) : State :=
  if decide (deps st = Some (value, delay)) then st
  else {| debouncedValue := debouncedValue st;
          deps := Some (value, delay);
          timer := Some (js_or delay (JNum 500), value) |}.

(** The pending timeout fires: [setDebouncedValue(value)]. *)
Definition timeout (st : State) : State :=
  match timer st with
  | Some (_, v) => {| debouncedValue := v; deps := deps st; timer := None |}
  | None => st
  end.

Inductive Step :=
| Render (value delay : JsValue)
| Timeout.

Definition step (st : State) (s : Step) : State :=
  match s with
  | Render value delay => render value delay st
  | Timeout => timeout st
  end.

(** The hook from its first render on. *)
Definition useDebounce (value delay : JsValue) (steps : list Step) : State :=
  foldl step (render value delay (initialState value)) steps.

(** The value of the last render. *)
Fixpoint lastValue (value : JsValue) (steps : list Step) : JsValue :=
  match steps with
  | [] => value
  | Render v _ :: rest => lastValue v rest
  | Timeout :: rest => lastValue value rest
  end.

End UseDebounce.

(** ** useSocket: events of the socket and sequences of calls *)

Module UseSocketEvents.
Import UseSocket.

(** What a listener does to the hook when it runs: the two listeners of
    the hook set [isConnected]; a listener of the caller is the caller's
    code. *)
Definition runHandler (st : HookState) (h : Handler) : HookState :=
  match h with
  | SetIsConnected b =>
      {| socketRef := socketRef st; isConnected := b; eventData := eventData st |}
  | Callback _ => st
  end.

(** The socket fires [event]: its listeners run in the order they were
    added. *)
Definition fire (event : string) (st : HookState) : HookState :=
  foldl runHandler st (registered event st).

Inductive Op :=
| OpEffect (url : string)
| OpCleanup
| OpEmit (event : string) (args : list JsValue)
| OpOn (event : string) (callback : Handler)
| OpOff (event : string)
| OpReconnect
| OpFire (event : string).

Definition runOp (st : HookState) (o : Op) : Result HookState :=
  match o with
  | OpEffect url => Ok (effect url st)
  | OpCleanup => Ok (cleanup st)
  | OpEmit event args => emit event args st
  | OpOn event callback => on event callback st
  | OpOff event => off event st
  | OpReconnect => reconnect st
  | OpFire event => Ok (fire event st)
  end.

Fixpoint runOps (st : HookState) (ops : list Op) : Result HookState :=
  match ops with
  | [] => Ok st
  | o :: rest => andThen (runOp st o) (fun st' => runOps st' rest)
  end.

End UseSocketEvents.

(** ** useArray *)

Module UseArray.

(** A relative index of [Array.prototype.slice]: negative indices count
    from the end, and the result is clamped to the array. *)
Definition relativeIndex (len i : Z) : Z :=
  if i <? 0 then Z.max (len + i) 0 else Z.min i len.

(** [a.slice(start, end)] *)
Definition slice {A : Type} (a : list A) (start end_ : Z) : list A :=
  let len := Z.of_nat (length a) in
  let s := relativeIndex len start in
  let e := relativeIndex len end_ in
  take (Z.to_nat (e - s)) (drop (Z.to_nat s) a).

(** [a.filter(callback)]; the callback gets the value, its index and the
    array. *)
Fixpoint filterFrom {A : Type} (callback : A -> Z -> list A -> bool)
    (array : list A) (index : Z) (rest : list A) : list A :=
  match rest with
  | [] => []
  | x :: xs =>
      if callback x index array
      then x :: filterFrom callback array (index + 1) xs
      else filterFrom callback array (index + 1) xs
  end.

Section Ops.

Context {A : Type}.

(** The updaters the hook passes to [setArray]. *)
Definition push (element : A) (a : list A) : list A :=
  a ++ [element].

Definition filter (callback : A -> Z -> list A -> bool) (a : list A) : list A :=
  filterFrom callback a 0 a.

Definition update (index : Z) (newElement : A) (a : list A) : list A :=
  slice a 0 index ++ [newElement] ++ slice a (index + 1) (Z.of_nat (length a)).

Definition remove (index : Z) (a : list A) : list A :=
  slice a 0 index ++ slice a (index + 1) (Z.of_nat (length a)).

Definition clear (a : list A) : list A := [].

End Ops.

End UseArray.

(** ** useStateWithHistory *)

Module UseStateWithHistory.

(** The state cell and the two refs of the hook. *)
Record State := {
  value : JsValue;
  history : list JsValue;
  pointer : Z;
}.

(** [useState(defaultValue)], [useRef([defaultValue])], [useRef(0)] *)
Definition initialState (defaultValue : JsValue) : State :=
  {| value := defaultValue; history := [defaultValue]; pointer := 0 |}.

(** [history[i]]: [undefined] outside the array. *)
Definition at_ (h : list JsValue) (i : Z) : JsValue :=
  if i <? 0 then JUndefined else default JUndefined (h !! Z.to_nat i).

(** [h.splice(start)] removes everything from [start] on. *)
Definition spliceFrom (start : Z) (h : list JsValue) : list JsValue :=
  take (Z.to_nat (UseArray.relativeIndex (Z.of_nat (length h)) start)) h.

(** [while (h.length > capacity) h.shift()] *)
Fixpoint trim (capacity : Z) (h : list JsValue) : list JsValue :=
  match h with
  | [] => []
  | _ :: rest =>
      if Z.of_nat (length h) >? capacity then trim capacity rest else h
  end.

(** The argument of [set]: a value, or a function of the previous one. *)
Inductive SetAction :=
| SetValue (v : JsValue)
| SetFn (f : JsValue -> JsValue).

Definition resolve (v : SetAction) (prevValue : JsValue) : JsValue :=
  match v with
  | SetValue x => x
  | SetFn f => f prevValue
  end.

Section Hook.

(** [{ capacity = 10 }] *)
Variable capacity : Z.

Definition set (v : SetAction) (st : State) : State :=
  let resolvedValue := resolve v (value st) in
  if decide (at_ (history st) (pointer st) = resolvedValue)
  then {| value := resolvedValue; history := history st; pointer := pointer st |}
  else
    let h1 :=
      if pointer st <? Z.of_nat (length (history st)) - 1
      then spliceFrom (pointer st + 1) (history st)
      else history st in
    let h3 := trim capacity (h1 ++ [resolvedValue]) in
    {| value := resolvedValue; history := h3;
       pointer := Z.of_nat (length h3) - 1 |}.

Definition back (st : State) : State :=
  if pointer st <=? 0 then st
  else {| value := at_ (history st) (pointer st - 1);
          history := history st; pointer := pointer st - 1 |}.

Definition forward (st : State) : State :=
  if pointer st >=? Z.of_nat (length (history st)) - 1 then st
  else {| value := at_ (history st) (pointer st + 1);
          history := history st; pointer := pointer st + 1 |}.

Definition go (index : Z) (st : State) : State :=
  if (index <? 0) || (index >? Z.of_nat (length (history st)) - 1) then st
  else {| value := at_ (history st) index;
          history := history st; pointer := index |}.

Inductive Op :=
| OpSet (v : SetAction)
| OpBack
| OpForward
| OpGo (index : Z).

Definition runOp (st : State) (o : Op) : State :=
  match o with
  | OpSet v => set v st
  | OpBack => back st
  | OpForward => forward st
  | OpGo index => go index st
  end.

End Hook.

(** The default of the option. *)
Definition capacityOf (options : option Z) : Z := default 10 options.

(** What the hook relies on between calls: the pointer is inside the
    history and the state cell shows the entry under the pointer. *)
Definition consistent (st : State) : Prop :=
  0 <= pointer st < Z.of_nat (length (history st))
  /\ value st = at_ (history st) (pointer st).

End UseStateWithHistory.

(** ** usePrevious *)

Module UsePrevious.

(** The two refs of the hook. *)
Record Refs := {
  currentRef : JsValue;
  previousRef : JsValue;
}.

(** The first render: [useRef(value)] and [useRef()]. *)
Definition initialRefs (value : JsValue) : Refs :=
  {| currentRef := value; previousRef := JUndefined |}.

(** The body of the hook on a render with [value]. *)
Definition render (r : Refs) (value : JsValue) : Refs :=
  if decide (currentRef r = value) then r
  else {| currentRef := value; previousRef := currentRef r |}.

(** The hook over the renders of a component; the result of the last
    render is [previousRef]. *)
Definition usePrevious (value : JsValue) (later : list JsValue) : Refs :=
  foldl render (render (initialRefs value) value) later.

End UsePrevious.

(** ** useUpdateEffect *)

Module UseUpdateEffect.

(** [firstRenderRef] and the number of times the callback ran. *)
Record State := {
  firstRenderRef : bool;
  calls : nat;
}.

Definition initialState : State := {| firstRenderRef := true; calls := 0%nat |}.

(** One run of the effect. *)
Definition runEffect (st : State) : State :=
  if firstRenderRef st
  then {| firstRenderRef := false; calls := calls st |}
  else {| firstRenderRef := false; calls := S (calls st) |}.

End UseUpdateEffect.

(** ** useStorage *)

Module UseStorage.

(** [defaultValue: T | (() => T)] *)
Inductive DefaultValue :=
| Plain (v : JsValue)
| Lazy (f : unit -> JsValue).

Section Hook.

(** [JSON.stringify] and [JSON.parse]; parsing text that is not JSON
    throws, which is [None] here. *)
Variable stringify : JsValue -> string.
Variable parse : string -> option JsValue.

(** The initialiser of [useState]: the stored value when there is one,
    the default otherwise.  [None] when [JSON.parse] throws. *)
Definition initialValue (key : string) (defaultValue : DefaultValue)
    (storageObject : gmap string string) : option JsValue :=
  match storageObject !! key with
  | Some jsonValue => parse jsonValue
  | None =>
      match defaultValue with
      | Lazy f => Some (f tt)
      | Plain v => Some v
      end
  end.

(** The effect that follows a change of the value. *)
Definition effect (key : string) (value : JsValue)
    (storageObject : gmap string string) : gmap string string :=
  match value with
  | JUndefined => delete key storageObject
  | _ => <[key := stringify value]> storageObject
  end.

(** [setValue(v)] followed by the effect; [remove()] is
    [setValue(undefined)]. *)
Definition setValue (key : string) (v : JsValue)
    (storageObject : gmap string string) : JsValue * gmap string string :=
  (v, effect key v storageObject).

Definition remove (key : string)
    (storageObject : gmap string string) : JsValue * gmap string string :=
  setValue key JUndefined storageObject.

End Hook.

End UseStorage.

(** ** What a mutation does to one cache entry *)

Module MutationEffects.
Import UseOptimisticMutation.

Definition cancelled (q : Query) : Query :=
  {| q_data := q_data q; q_dataUpdateCount := q_dataUpdateCount q;
     q_isInvalidated := q_isInvalidated q; q_promise := None |}.

Definition rolledBack (q : Query) : Query :=
  {| q_data := q_data q; q_dataUpdateCount := S (q_dataUpdateCount q);
     q_isInvalidated := false; q_promise := q_promise q |}.

Definition invalidated (q : Query) : Query :=
  {| q_data := q_data q; q_dataUpdateCount := q_dataUpdateCount q;
     q_isInvalidated := true; q_promise := q_promise q |}.

(** The entry under [k0] after [mutate], from the entry before. *)
Definition settledQuery (p : UseOptimisticMutationProps) (variables : JsValue)
    (k0 : list KeyPart) (q : Query) : Query :=
  let q1 := if matchesKey (queryKey p) k0 then cancelled q else q in
  let q2 :=
    match mutationFn p variables with
    | Resolved _ => q1
    | Rejected _ =>
        if bool_decide (k0 = queryKey p) && negb (bool_decide (q_data q = JUndefined))
        then rolledBack q1 else q1
    end in
  if default true (shouldRefetchQuery p) && matchesKey (queryKey p) k0
  then invalidated q2 else q2.

End MutationEffects.

(** ** useStorage: mounting, and a codec for the scenarios *)

Module UseStorageMount.
Import UseStorage.

(** The first render and the effect after it: the initial value is
    written back to the storage.  [None] when [JSON.parse] throws. *)
Definition mount (stringify : JsValue -> string) (parse : string -> option JsValue)
    (key : string) (defaultValue : DefaultValue)
    (storageObject : gmap string string) : option (JsValue * gmap string string) :=
  match initialValue parse key defaultValue storageObject with
  | Some v => Some (v, effect stringify key v storageObject)
  | None => None
  end.

(** The value a default stands for. *)
Definition defaultOf (defaultValue : DefaultValue) : JsValue :=
  match defaultValue with
  | Plain v => v
  | Lazy f => f tt
  end.

(** A codec that is enough for stored strings. *)
Definition stringifyString (v : JsValue) : string :=
  match v with
  | JStr s => s
  | _ => ""
  end.

Definition parseString (s : string) : option JsValue := Some (JStr s).

End UseStorageMount.

(** ** useDebounce: what holds between two steps *)

Module UseDebounceInvariant.
Import UseDebounce.

(** Either a timeout is pending for the value of the last render, or that
    value is the debounced one. *)
Definition settledOrPending (v : JsValue) (st : State) : Prop :=
  (exists d, deps st = Some (v, d))
  /\ ((exists d, timer st = Some (d, v)) \/ (timer st = None /\ debouncedValue st = v)).

End UseDebounceInvariant.

(** ** Further scenarios *)

Module CoverageScenario.



(** The second page of the users. *)
Definition secondPage : UsePagination.State :=
  UsePagination.setPageIndex (UsePagination.NewValue 1)
    (UsePagination.initialState PaginationScenario.usersProps).

(** A history of three values with the pointer on the second. *)
Definition threeValues : UseStateWithHistory.State :=
  {| UseStateWithHistory.value := JNum 2;
     UseStateWithHistory.history := [JNum 1; JNum 2; JNum 3];
     UseStateWithHistory.pointer := 1 |}.

End CoverageScenario.

(** * Properties *)

Lemma bind_run {A B : Type} (m : M A) (f : A -> M B) (w : World) :
  bind m f w = f (m w).1 (m w).2.
Proof. unfold bind. by destruct (m w). Qed.

Ltac run := repeat (rewrite !bind_run; cbn [fst snd]).

(** ** The query client *)

Section ClientFacts.

Variables (k : list KeyPart) (w : World).

Lemma cancelQueries_heap : heap (cancelQueries k w).2 = heap w.
Proof. reflexivity. Qed.

Lemma cancelQueries_trace :
  trace (cancelQueries k w).2 = trace w ++ [EvCancelQueries k].
Proof. reflexivity. Qed.

Lemma cancelQueries_lookup k0 :
  lookupQuery k0 (cancelQueries k w).2 =
  let q := lookupQuery k0 w in
  if matchesKey k k0
  then {| q_data := q_data q; q_dataUpdateCount := q_dataUpdateCount q;
          q_isInvalidated := q_isInvalidated q; q_promise := None |}
  else q.
Proof.
  unfold lookupQuery, cancelQueries, bind, log; simpl.
  rewrite map_lookup_imap.
  destruct (queries w !! k0) as [q|]; simpl; [done|].
  by destruct (matchesKey k k0).
Qed.

Lemma invalidateQueries_heap : heap (invalidateQueries k w).2 = heap w.
Proof. reflexivity. Qed.

Lemma invalidateQueries_trace :
  trace (invalidateQueries k w).2 = trace w ++ [EvInvalidateQueries k].
Proof. reflexivity. Qed.

Lemma invalidateQueries_lookup k0 :
  lookupQuery k0 (invalidateQueries k w).2 =
  match queries w !! k0 with
  | Some q =>
      if matchesKey k k0
      then {| q_data := q_data q; q_dataUpdateCount := q_dataUpdateCount q;
              q_isInvalidated := true; q_promise := q_promise q |}
      else q
  | None => emptyQuery
  end.
Proof.
  unfold lookupQuery, invalidateQueries, bind, log; simpl.
  rewrite map_lookup_imap.
  by destruct (queries w !! k0) as [q|].
Qed.

Lemma getQueryData_value : (getQueryData k w).1 = q_data (lookupQuery k w).
Proof. reflexivity. Qed.

Lemma getQueryData_trace :
  trace (getQueryData k w).2 = trace w ++ [EvGetQueryData k].
Proof. reflexivity. Qed.

Lemma setQueryData_heap d : heap (setQueryData k d w).2 = heap w.
Proof. by destruct d. Qed.

Lemma setQueryData_trace d :
  trace (setQueryData k d w).2 = trace w ++ [EvSetQueryData k d].
Proof. by destruct d. Qed.

Lemma setQueryData_lookup d k0 :
  lookupQuery k0 (setQueryData k d w).2 =
  if bool_decide (d = JUndefined) then lookupQuery k0 w
  else if bool_decide (k0 = k)
       then {| q_data := d;
               q_dataUpdateCount := S (q_dataUpdateCount (lookupQuery k w));
               q_isInvalidated := false;
               q_promise := q_promise (lookupQuery k w) |}
       else lookupQuery k0 w.
Proof.
  destruct d; simpl; try done;
    unfold lookupQuery; simpl; case_bool_decide; simplify_map_eq; done.
Qed.

End ClientFacts.

(** ** useOptimisticMutation *)

Section OptimisticMutation.

Import UseOptimisticMutation MutationScenario.

Section Steps.

Variables (p : UseOptimisticMutationProps) (variables : JsValue) (w : World).

Lemma callOptimisticUpdateFn_heap w0 :
  heap (callOptimisticUpdateFn p variables w0).2 = updatedHeap p variables w0.
Proof. unfold callOptimisticUpdateFn, updatedHeap. run. simpl. by destruct (state p). Qed.

Lemma callOptimisticUpdateFn_queries w0 :
  queries (callOptimisticUpdateFn p variables w0).2 = queries w0.
Proof. unfold callOptimisticUpdateFn. run. simpl. by destruct (state p). Qed.

Lemma callOptimisticUpdateFn_trace w0 :
  trace (callOptimisticUpdateFn p variables w0).2 =
  trace w0 ++ [EvOptimisticUpdate (state p)].
Proof. unfold callOptimisticUpdateFn. run. simpl. by destruct (state p). Qed.

(** The snapshot is the cached data, that is, for an object, the
    reference the cache holds. *)
Lemma onMutate_previousState :
  previousState (opt_onMutate p variables w).1 = q_data (lookupQuery (queryKey p) w).
Proof.
  unfold opt_onMutate. run. unfold ret; cbn [fst snd].
  rewrite getQueryData_value, cancelQueries_lookup. simpl.
  by destruct (matchesKey _ _).
Qed.

Lemma onMutate_heap :
  heap (opt_onMutate p variables w).2 = updatedHeap p variables w.
Proof.
  unfold opt_onMutate. run. unfold ret; cbn [fst snd].
  by rewrite callOptimisticUpdateFn_heap.
Qed.

Lemma onMutate_trace :
  trace (opt_onMutate p variables w).2 =
  trace w ++ [EvCancelQueries (queryKey p); EvGetQueryData (queryKey p);
              EvOptimisticUpdate (state p)].
Proof.
  unfold opt_onMutate. run. unfold ret; cbn [fst snd].
  rewrite callOptimisticUpdateFn_trace, getQueryData_trace, cancelQueries_trace.
  by rewrite <- !app_assoc.
Qed.

Lemma onMutate_lookup k0 :
  lookupQuery k0 (opt_onMutate p variables w).2 =
  lookupQuery k0 (cancelQueries (queryKey p) w).2.
Proof.
  unfold opt_onMutate. run. unfold ret; cbn [fst snd].
  unfold lookupQuery. by rewrite callOptimisticUpdateFn_queries.
Qed.

Lemma onMutate_data k0 :
  q_data (lookupQuery k0 (opt_onMutate p variables w).2) = q_data (lookupQuery k0 w).
Proof.
  rewrite onMutate_lookup, cancelQueries_lookup. simpl. by destruct (matchesKey _ _).
Qed.

Lemma onMutate_revision k0 :
  revision k0 (opt_onMutate p variables w).2 = revision k0 w.
Proof.
  unfold revision.
  rewrite onMutate_lookup, cancelQueries_lookup. simpl. by destruct (matchesKey _ _).
Qed.

Lemma onSettled_trace w0 :
  trace (opt_onSettled p w0).2 =
  trace w0 ++ (if default true (shouldRefetchQuery p)
               then [EvInvalidateQueries (queryKey p)] else []).
Proof.
  unfold opt_onSettled. destruct (default true _); simpl; [done|].
  by rewrite app_nil_r.
Qed.

Lemma onSettled_heap w0 : heap (opt_onSettled p w0).2 = heap w0.
Proof. unfold opt_onSettled. by destruct (default true _). Qed.

Lemma onSettled_data k0 w0 :
  q_data (lookupQuery k0 (opt_onSettled p w0).2) = q_data (lookupQuery k0 w0).
Proof.
  unfold opt_onSettled. destruct (default true _); [|done].
  rewrite invalidateQueries_lookup. unfold lookupQuery.
  destruct (queries w0 !! k0); simpl; [|done]. by destruct (matchesKey _ _).
Qed.

Lemma onSettled_revision k0 w0 :
  revision k0 (opt_onSettled p w0).2 = revision k0 w0.
Proof.
  unfold revision, opt_onSettled. destruct (default true _); [|done].
  rewrite invalidateQueries_lookup. unfold lookupQuery.
  destruct (queries w0 !! k0); simpl; [|done]. by destruct (matchesKey _ _).
Qed.

(** The mutation function is called in the world [onMutate] left. *)
Lemma mutate_unfold :
  mutate p variables w =
  settle p variables (opt_onMutate p variables w).1 (mutationFn p variables)
    (callMutationFn p variables (opt_onMutate p variables w).2).2.
Proof. unfold mutate. run. reflexivity. Qed.

Lemma mutate_trace :
  trace (mutate p variables w).2 =
  trace w ++ [EvCancelQueries (queryKey p); EvGetQueryData (queryKey p);
              EvOptimisticUpdate (state p); EvMutationFn variables]
          ++ settleEvents p variables w.
Proof.
  rewrite mutate_unfold. unfold settle, settleEvents.
  destruct (mutationFn p variables) as [d|e]; run; unfold ret; cbn [snd].
  - rewrite onSettled_trace. unfold opt_onSuccess.
    destruct (onSuccess p); simpl; rewrite onMutate_trace; by simplify_list_eq.
  - rewrite onSettled_trace. unfold opt_onError. run.
    rewrite onMutate_previousState.
    destruct (onError p); simpl; rewrite setQueryData_trace; simpl;
      rewrite onMutate_trace; by simplify_list_eq.
Qed.

Lemma newEvents_eq :
  newEvents p variables w =
  [EvCancelQueries (queryKey p); EvGetQueryData (queryKey p);
   EvOptimisticUpdate (state p); EvMutationFn variables] ++ settleEvents p variables w.
Proof. unfold newEvents. rewrite mutate_trace. by rewrite drop_app_length. Qed.

(** Nothing after [onMutate] writes to the heap. *)
Lemma mutate_heap : heap (mutate p variables w).2 = updatedHeap p variables w.
Proof.
  rewrite mutate_unfold. unfold settle.
  destruct (mutationFn p variables) as [d|e]; run; unfold ret; cbn [snd];
    rewrite onSettled_heap.
  - unfold opt_onSuccess. destruct (onSuccess p); simpl; apply onMutate_heap.
  - unfold opt_onError. run.
    destruct (onError p); simpl; rewrite setQueryData_heap; simpl; apply onMutate_heap.
Qed.

(** The cache holds the same data (the same reference) before and after. *)
Lemma mutate_data :
  q_data (lookupQuery (queryKey p) (mutate p variables w).2) =
  q_data (lookupQuery (queryKey p) w).
Proof.
  rewrite mutate_unfold. unfold settle.
  destruct (mutationFn p variables) as [d|e]; run; unfold ret; cbn [snd];
    rewrite onSettled_data.
  - unfold opt_onSuccess. destruct (onSuccess p); simpl; apply onMutate_data.
  - unfold opt_onError. run. rewrite onMutate_previousState.
    assert (forall w0,
      q_data (lookupQuery (queryKey p) w0) = q_data (lookupQuery (queryKey p) w) ->
      q_data (lookupQuery (queryKey p)
        (setQueryData (queryKey p) (q_data (lookupQuery (queryKey p) w)) w0).2) =
      q_data (lookupQuery (queryKey p) w)) as Hset.
    { intros w0 Hw0. rewrite setQueryData_lookup.
      case_bool_decide; [done|]. by rewrite bool_decide_eq_true_2. }
    destruct (onError p); simpl; apply Hset; apply (onMutate_data (queryKey p)).
Qed.

Lemma mutate_revision :
  revision (queryKey p) (mutate p variables w).2 =
  match mutationFn p variables, q_data (lookupQuery (queryKey p) w) with
  | Resolved _, _ | Rejected _, JUndefined => revision (queryKey p) w
  | Rejected _, _ => S (revision (queryKey p) w)
  end.
Proof.
  rewrite mutate_unfold. unfold settle.
  destruct (mutationFn p variables) as [d|e]; run; unfold ret; cbn [snd];
    rewrite onSettled_revision.
  - unfold opt_onSuccess.
    destruct (onSuccess p), (q_data (lookupQuery (queryKey p) w));
      simpl; apply onMutate_revision.
  - unfold opt_onError. run. rewrite onMutate_previousState.
    assert (forall w0, revision (queryKey p) w0 = revision (queryKey p) w ->
      revision (queryKey p)
        (setQueryData (queryKey p) (q_data (lookupQuery (queryKey p) w)) w0).2 =
      match q_data (lookupQuery (queryKey p) w) with
      | JUndefined => revision (queryKey p) w
      | _ => S (revision (queryKey p) w)
      end) as Hset.
    { intros w0 Hw0. unfold revision in *. rewrite setQueryData_lookup.
      destruct (q_data (lookupQuery (queryKey p) w)); simpl; try done;
        rewrite bool_decide_eq_true_2 by done; simpl; by rewrite Hw0. }
    destruct (onError p); simpl; apply Hset; apply (onMutate_revision (queryKey p)).
Qed.

End Steps.

(** C1. The rollback of a failed mutation is meant to put back the value
    the cache held before [mutate].  It does not: whatever the outcome, a
    reader of the cache sees after the settlement exactly what it saw right
    after the optimistic update, because the snapshot is the cached
    reference and not a copy.  For the entry [todo:1] holding
    [{title: "A", done: false}], with the cached object passed as [state]
    and a rejected mutation, [done] is [false] before [mutate] and [true]
    after the settlement. *)
Theorem rollback_leaves_optimistic_value :
  (forall p variables w,
      cachedValue (queryKey p) (mutate p variables w).2 =
      cachedValue (queryKey p) (opt_onMutate p variables w).2)
  /\ mutationFn failingTodo variables1 = Rejected (JStr "500")
  /\ cachedProp todoKey "done" world0 = JBool false
  /\ cachedProp todoKey "done" (mutate failingTodo variables1 world0).2 = JBool true.
Proof.
  split.
  - intros p variables w. unfold cachedValue.
    by rewrite mutate_heap, mutate_data, onMutate_heap, onMutate_data.
  - repeat split; vm_compute; reflexivity.
Qed.

(** C2, as stated, fails: when the object passed as [state] is not the
    cached object, a read of the cache after [onMutate] does not show the
    optimistic update. *)
Lemma optimistic_update_misses_cache :
  ~ (forall p variables w o,
        cachedValue (queryKey p) w = SObj o ->
        cachedValue (queryKey p) (opt_onMutate p variables w).2 =
        SObj (optimisticUpdateFn p o variables)).
Proof.
  intros H.
  specialize (H copiedTodo variables1 world0 todoA eq_refl).
  vm_compute in H. discriminate H.
Qed.

(** C2, amended.  [onMutate] applies the optimistic update in place to the
    object passed as [state].  A read of the cache under [queryKey] right
    after it shows the updated object when the cached data is that very
    object, and what it showed before otherwise. *)
Theorem onMutate_updates_state_in_place p variables w :
  heap (opt_onMutate p variables w).2 =
    match state p with
    | JRef l => alter (fun o => optimisticUpdateFn p o variables) l (heap w)
    | _ => heap w
    end
  /\ cachedValue (queryKey p) (opt_onMutate p variables w).2 =
       if decide (q_data (lookupQuery (queryKey p) w) = state p)
       then match cachedValue (queryKey p) w with
            | SObj o => SObj (optimisticUpdateFn p o variables)
            | s => s
            end
       else cachedValue (queryKey p) w.
Proof.
  split; [apply onMutate_heap|].
  unfold cachedValue. rewrite onMutate_heap, onMutate_data. unfold updatedHeap.
  case_decide as Heq.
  - rewrite Heq. destruct (state p) as [| | | | |l]; simpl; try done.
    rewrite lookup_alter_eq. by destruct (heap w !! l).
  - destruct (state p) as [| | | | |l]; try done.
    destruct (q_data (lookupQuery (queryKey p) w)) as [| | | | |l']; simpl; try done.
    rewrite lookup_alter_ne; [done|congruence].
Qed.

(** C3, as stated, fails: a rejected mutation with the default
    [shouldRefetchQuery] invalidates [queryKey]. *)
Lemma failed_mutation_invalidates :
  ~ (forall p variables w error,
        mutationFn p variables = Rejected error ->
        shouldRefetchQuery p = None ->
        EvInvalidateQueries (queryKey p) ∉ newEvents p variables w).
Proof.
  intros H.
  apply (H failingTodo variables1 world0 (JStr "500") eq_refl eq_refl).
  vm_compute. repeat (first [apply list_elem_of_here | apply list_elem_of_further]).
Qed.

(** C3, amended.  After the mutation function has settled, a success is
    followed by the success callback, a failure by the rollback
    [setQueryData(queryKey, snapshot)] and the error callback; in both
    cases [queryKey] is then invalidated, unless [shouldRefetchQuery] is
    [false]. *)
Theorem settlement_events p variables w :
  drop 4 (newEvents p variables w) =
  match mutationFn p variables with
  | Resolved data =>
      (if onSuccess p then [EvOnSuccess data] else []) ++
      (if default true (shouldRefetchQuery p)
       then [EvInvalidateQueries (queryKey p)] else [])
  | Rejected error =>
      [EvSetQueryData (queryKey p) (q_data (lookupQuery (queryKey p) w))] ++
      (if onError p then [EvOnError error] else []) ++
      (if default true (shouldRefetchQuery p)
       then [EvInvalidateQueries (queryKey p)] else [])
  end.
Proof. rewrite newEvents_eq. reflexivity. Qed.

(** C9. Every [mutate] starts with the cancellation of the queries under
    [queryKey], then the snapshot, then the optimistic update, then the
    mutation function, in this order.  When [onMutate] is over no fetch is
    in flight for a query under [queryKey], and the mutation function is
    called in the world [onMutate] left, whose heap has the update. *)
Theorem onMutate_order p variables w :
  take 4 (newEvents p variables w) =
    [EvCancelQueries (queryKey p); EvGetQueryData (queryKey p);
     EvOptimisticUpdate (state p); EvMutationFn variables]
  /\ (forall k' q,
        queries (opt_onMutate p variables w).2 !! k' = Some q ->
        matchesKey (queryKey p) k' = true -> q_promise q = None)
  /\ mutate p variables w =
       settle p variables (opt_onMutate p variables w).1 (mutationFn p variables)
         (callMutationFn p variables (opt_onMutate p variables w).2).2
  /\ heap (callMutationFn p variables (opt_onMutate p variables w).2).2 =
       match state p with
       | JRef l => alter (fun o => optimisticUpdateFn p o variables) l (heap w)
       | _ => heap w
       end.
Proof.
  split; [by rewrite newEvents_eq|].
  split.
  - intros k' q Hq Hm.
    pose proof (onMutate_lookup p variables w k') as Hl.
    rewrite cancelQueries_lookup in Hl. simpl in Hl. rewrite Hm in Hl.
    unfold lookupQuery in Hl at 1. rewrite Hq in Hl. simpl in Hl. by rewrite Hl.
  - split; [apply mutate_unfold|].
    unfold callMutationFn. run. unfold ret; cbn [snd]. simpl. apply onMutate_heap.
Qed.

(** The order of C9 on the todo scenario: the query of [todo:1] has no
    fetch in flight when [onMutate] is over. *)
Lemma onMutate_order_witness :
  take 4 (newEvents failingTodo variables1 world0) =
    [EvCancelQueries todoKey; EvGetQueryData todoKey;
     EvOptimisticUpdate (JRef 1); EvMutationFn variables1]
  /\ q_promise {| q_data := JRef 1; q_dataUpdateCount := 1;
                  q_isInvalidated := false; q_promise := None |} = None.
Proof.
  split.
  - exact (proj1 (onMutate_order failingTodo variables1 world0)).
  - refine (proj1 (proj2 (onMutate_order failingTodo variables1 world0)) todoKey _ _ _);
      vm_compute; reflexivity.
Defined.

(** C7, as stated, fails: the optimistic apply does not produce a new
    revision of the entry. *)
Lemma optimistic_apply_keeps_revision :
  ~ (forall p variables w,
        (revision (queryKey p) w
         < revision (queryKey p) (opt_onMutate p variables w).2)%nat).
Proof.
  intros H. specialize (H failingTodo variables1 world0).
  vm_compute in H. lia.
Qed.

(** C7, amended.  The number of data updates of the entry never
    decreases over a mutation.  The optimistic apply leaves it as it is, and
    so do a successful settlement and the invalidation; the rollback of a
    failed mutation whose snapshot is not [undefined] adds exactly one. *)
Theorem revision_of_mutation p variables w :
  revision (queryKey p) (opt_onMutate p variables w).2 = revision (queryKey p) w
  /\ revision (queryKey p) (mutate p variables w).2 =
       match mutationFn p variables, q_data (lookupQuery (queryKey p) w) with
       | Resolved _, _ | Rejected _, JUndefined => revision (queryKey p) w
       | Rejected _, _ => S (revision (queryKey p) w)
       end
  /\ (revision (queryKey p) w <= revision (queryKey p) (mutate p variables w).2)%nat.
Proof.
  split; [apply onMutate_revision|].
  split; [apply mutate_revision|].
  rewrite mutate_revision.
  destruct (mutationFn p variables), (q_data (lookupQuery (queryKey p) w)); lia.
Qed.

End OptimisticMutation.

(** ** usePagination *)

Section Pagination.

Import UsePagination PaginationScenario.

Lemma mergeQueryOptions_queryKey d f :
  o_queryKey (mergeQueryOptions d f) = o_queryKey d.
Proof. by destruct f. Qed.

Lemma mergeQueryOptions_queryFn d f :
  o_queryFn (mergeQueryOptions d f) = o_queryFn d.
Proof. by destruct f. Qed.

Lemma mergeQueryOptions_enabled d f :
  o_enabled (mergeQueryOptions d f) = o_enabled d.
Proof. by destruct f. Qed.

(** C4, as stated, fails: after [setPageIndex(1)] and [setPageIndex(-1)]
    the stored page index is not 1. *)
Lemma setPageIndex_stores_negative :
  pageIndex (setPageIndex (NewValue (-1))
               (setPageIndex (NewValue 1) (initialState usersProps))) <> 1.
Proof. vm_compute. discriminate. Qed.

(** C4, amended.  [setPageIndex(i)] with [i < 0] stores [i] as the page
    index and leaves the page size; the query of that window is disabled,
    and rendering the hook issues no fetch and changes nothing in the
    client. *)
Theorem negative_pageIndex_stored_but_not_fetched props st i w :
  i < 0 ->
  pageIndex (setPageIndex (NewValue i) st) = i
  /\ pageSize (setPageIndex (NewValue i) st) = pageSize st
  /\ o_enabled (mergeQueryOptions
                  (defaultOptions props (setPageIndex (NewValue i) st))
                  (queryFilters props)) = false
  /\ (query props (setPageIndex (NewValue i) st) w).2 = w.
Proof.
  intros Hi.
  assert (o_enabled (mergeQueryOptions
                  (defaultOptions props (setPageIndex (NewValue i) st))
                  (queryFilters props)) = false) as Hen.
  { rewrite mergeQueryOptions_enabled. simpl.
    assert ((i >? -1) = false) as -> by (rewrite Z.gtb_ltb; apply Z.ltb_ge; lia).
    done. }
  repeat split; try done.
  unfold query, useQuery. rewrite Hen. simpl.
  by destruct (q_promise _).
Qed.

(** C4 on [setPageIndex(1)] followed by [setPageIndex(-1)]. *)
Lemma negative_pageIndex_witness :
  pageIndex (setPageIndex (NewValue (-1))
               (setPageIndex (NewValue 1) (initialState usersProps))) = -1
  /\ (query usersProps
        (setPageIndex (NewValue (-1))
           (setPageIndex (NewValue 1) (initialState usersProps)))
        emptyWorld).2 = emptyWorld.
Proof.
  pose proof (negative_pageIndex_stored_but_not_fetched usersProps
                (setPageIndex (NewValue 1) (initialState usersProps)) (-1) emptyWorld
                ltac:(lia)) as H.
  exact (conj (proj1 H) (proj2 (proj2 (proj2 H)))).
Defined.

(** C5. The hook is meant to report the paging metadata of the fetch.  For
    [hasNextPage] it does not: a response that reports a boolean, [false]
    included, makes the hook report [true].  On the last of three pages of
    25 items the hook reports a next page; the total and the number of
    pages are the reported ones. *)
Theorem hasNextPage_ignores_reported_false :
  (forall st d ti tp b hp,
      r_hasNextPage
        (afterFetch st {| data := d;
                          paging := Some {| totalItems := ti; totalPages := tp;
                                            hasNextPage := JBool b;
                                            hasPreviousPage := hp |} |}) = true)
  /\ r_hasNextPage (afterFetch (initialState usersProps) lastPage) = true
  /\ r_total (afterFetch (initialState usersProps) lastPage) = JNum 25
  /\ r_totalPages (afterFetch (initialState usersProps) lastPage) = JNum 3.
Proof. repeat split. Qed.

Lemma fetchCount_snoc k t i s :
  fetchCount k (t ++ [EvQueryFn k i s]) = S (fetchCount k t).
Proof.
  unfold fetchCount. rewrite List.filter_app, length_app. simpl.
  rewrite bool_decide_eq_true_2 by done. simpl. lia.
Qed.

(** A render while a fetch for the window is in flight joins it. *)
Lemma query_joins c st w pr :
  q_promise (lookupQuery (windowKey c st) w) = Some pr ->
  query c st w = (Some pr, w).
Proof.
  intros H. unfold query, useQuery.
  rewrite mergeQueryOptions_queryKey. simpl. unfold windowKey in H. by rewrite H.
Qed.

Lemma queryAll_joins c cs st w pr :
  Forall (fun c' => queryKey c' = queryKey c) cs ->
  q_promise (lookupQuery (windowKey c st) w) = Some pr ->
  queryAll cs st w = (replicate (length cs) (Some pr), w).
Proof.
  intros Hall Hp. induction Hall as [|c' cs Hk _ IH]; [done|].
  simpl. unfold bind.
  rewrite (query_joins c' st w pr).
  - rewrite IH. reflexivity.
  - unfold windowKey in *. by rewrite Hk.
Qed.

(** The first render of an enabled hook on stale data starts the fetch. *)
Lemma query_starts c st w :
  q_promise (lookupQuery (windowKey c st) w) = None ->
  o_enabled (defaultOptions c st)
    && isStale (mergeQueryOptions (defaultOptions c st) (queryFilters c))
         (lookupQuery (windowKey c st) w) = true ->
  (query c st w).1 = Some (nextPromise w)
  /\ trace (query c st w).2 =
       trace w ++ [EvQueryFn (windowKey c st) (pageIndex st) (pageSize st)]
  /\ q_promise (lookupQuery (windowKey c st) (query c st w).2) = Some (nextPromise w).
Proof.
  intros Hp Hs. unfold query, useQuery.
  rewrite mergeQueryOptions_queryKey, mergeQueryOptions_enabled, mergeQueryOptions_queryFn.
  change (o_queryKey (defaultOptions c st)) with (windowKey c st).
  rewrite Hp, Hs. simpl. repeat split.
  unfold lookupQuery. simpl. by rewrite lookup_insert_eq.
Qed.

(** C8. When several callers ask for the same key and window before the
    first fetch resolves (no fetch was in flight, and the first caller is
    enabled and sees stale data), the query function runs exactly once and
    every caller waits on the same promise. *)
Theorem concurrent_queries_coalesce c cs st w :
  Forall (fun c' => queryKey c' = queryKey c) cs ->
  q_promise (lookupQuery (windowKey c st) w) = None ->
  o_enabled (defaultOptions c st)
    && isStale (mergeQueryOptions (defaultOptions c st) (queryFilters c))
         (lookupQuery (windowKey c st) w) = true ->
  (queryAll (c :: cs) st w).1 = replicate (S (length cs)) (Some (nextPromise w))
  /\ trace (queryAll (c :: cs) st w).2 =
       trace w ++ [EvQueryFn (windowKey c st) (pageIndex st) (pageSize st)]
  /\ fetchCount (windowKey c st) (trace (queryAll (c :: cs) st w).2) =
       S (fetchCount (windowKey c st) (trace w)).
Proof.
  intros Hall Hp Hs.
  destruct (query_starts c st w Hp Hs) as (Hr & Ht & Hq).
  assert (queryAll (c :: cs) st w =
          (replicate (S (length cs)) (Some (nextPromise w)), (query c st w).2)) as Heq.
  { simpl. unfold bind. destruct (query c st w) as [r w'] eqn:E. simpl in *.
    rewrite (queryAll_joins c cs st w' (nextPromise w) Hall Hq). unfold ret.
    by rewrite Hr. }
  rewrite Heq. simpl. rewrite Ht. repeat split. apply fetchCount_snoc.
Qed.

(** C8 on three components that show the first page of the users. *)
Lemma concurrent_queries_witness :
  (queryAll [usersProps; usersProps; usersProps] (initialState usersProps) emptyWorld).1
    = [Some 0%nat; Some 0%nat; Some 0%nat]
  /\ fetchCount [KStr "users"; KNum 0; KNum 10]
       (trace (queryAll [usersProps; usersProps; usersProps]
                 (initialState usersProps) emptyWorld).2) = 1%nat.
Proof.
  pose proof (concurrent_queries_coalesce usersProps [usersProps; usersProps]
                (initialState usersProps) emptyWorld
                ltac:(repeat constructor) ltac:(reflexivity) ltac:(reflexivity)) as H.
  exact (conj (proj1 H) (proj2 (proj2 H))).
Defined.

End Pagination.

(** ** useSocket *)

Section Socket.

Import UseSocket SocketScenario.

(** C6, as stated, fails: after [on(e, h1); on(e, h2); off(e)] no listener
    is left for [e], so [h1] is not registered any more. *)
Lemma off_removes_every_listener :
  exists st3, onOnOff = Ok st3
              /\ registered "message" st3 = []
              /\ Callback 1 ∉ registered "message" st3.
Proof.
  eexists. split; [reflexivity|].
  split; [vm_compute; reflexivity|].
  vm_compute. apply not_elem_of_nil.
Qed.

(** C6, amended.  On an initialised socket, [on(event, handler)] adds one
    listener after those the event has, and [off(event)] removes every
    listener of the event; the listeners of other events stay. *)
Theorem on_appends_off_clears st s event callback :
  socketRef st = Some s ->
  (exists st', on event callback st = Ok st'
     /\ registered event st' = registered event st ++ [callback]
     /\ (forall other, other <> event -> registered other st' = registered other st))
  /\ (exists st', off event st = Ok st'
     /\ registered event st' = []
     /\ (forall other, other <> event -> registered other st' = registered other st)).
Proof.
  intros Hs. unfold on, off, registered. rewrite Hs.
  split; eexists; (split; [reflexivity|]); simpl.
  - split; [by rewrite lookup_insert_eq|].
    intros other Hne. by rewrite lookup_insert_ne.
  - split; [by rewrite lookup_delete_eq|].
    intros other Hne. by rewrite lookup_delete_ne.
Qed.

(** C6 on the mounted hook and the event [message]. *)
Lemma on_appends_off_clears_witness :
  (exists st', on "message" (Callback 1) mounted = Ok st'
     /\ registered "message" st' = registered "message" mounted ++ [Callback 1]
     /\ (forall other, other <> "message"%string ->
                       registered other st' = registered other mounted))
  /\ (exists st', off "message" mounted = Ok st'
     /\ registered "message" st' = []
     /\ (forall other, other <> "message"%string ->
                       registered other st' = registered other mounted)).
Proof.
  exact (on_appends_off_clears mounted _ "message" (Callback 1) eq_refl).
Defined.

(** C10. While the socket is not initialised, [emit], [on], [off] and
    [reconnect] do nothing: they do not throw and they return the state of
    the hook as it was. *)
Theorem uninitialized_socket_noop st event args callback :
  socketRef st = None ->
  emit event args st = Ok st
  /\ on event callback st = Ok st
  /\ off event st = Ok st
  /\ reconnect st = Ok st.
Proof. intros H. unfold emit, on, off, reconnect. by rewrite H. Qed.

(** C10 before the effect has run. *)
Lemma uninitialized_socket_witness :
  emit "message" [JStr "hi"] initialState = Ok initialState
  /\ on "message" (Callback 1) initialState = Ok initialState
  /\ off "message" initialState = Ok initialState
  /\ reconnect initialState = Ok initialState.
Proof.
  exact (uninitialized_socket_noop initialState "message" [JStr "hi"] (Callback 1) eq_refl).
Defined.

End Socket.

(** * Further properties of the hooks *)

(** ** What a mutation does to the cache *)

Section MutationCoverage.

Import UseOptimisticMutation MutationScenario MutationEffects.

Lemma cancelQueries_queries k w k0 :
  queries (cancelQueries k w).2 !! k0 =
  (fun q => if matchesKey k k0 then cancelled q else q) <$> queries w !! k0.
Proof.
  unfold cancelQueries, bind, log; simpl. rewrite map_lookup_imap.
  by destruct (queries w !! k0).
Qed.

Lemma invalidateQueries_queries k w k0 :
  queries (invalidateQueries k w).2 !! k0 =
  (fun q => if matchesKey k k0 then invalidated q else q) <$> queries w !! k0.
Proof.
  unfold invalidateQueries, bind, log; simpl. rewrite map_lookup_imap.
  by destruct (queries w !! k0).
Qed.

Lemma setQueryData_queries k d w k0 :
  queries (setQueryData k d w).2 !! k0 =
  if bool_decide (k0 = k) && negb (bool_decide (d = JUndefined))
  then Some {| q_data := d;
               q_dataUpdateCount := S (q_dataUpdateCount (lookupQuery k w));
               q_isInvalidated := false;
               q_promise := q_promise (lookupQuery k w) |}
  else queries w !! k0.
Proof.
  destruct d; simpl; rewrite ?andb_false_r; try done;
    case_bool_decide; simplify_map_eq; done.
Qed.

Lemma onSettled_queries p w k0 :
  queries (opt_onSettled p w).2 !! k0 =
  (fun q => if default true (shouldRefetchQuery p) && matchesKey (queryKey p) k0
            then invalidated q else q) <$> queries w !! k0.
Proof.
  unfold opt_onSettled. destruct (default true _); simpl.
  - apply invalidateQueries_queries.
  - by destruct (queries w !! k0).
Qed.

Lemma onMutate_queries p variables w k0 :
  queries (opt_onMutate p variables w).2 !! k0 =
  queries (cancelQueries (queryKey p) w).2 !! k0.
Proof.
  unfold opt_onMutate. run. unfold ret; cbn [fst snd].
  by rewrite callOptimisticUpdateFn_queries.
Qed.

(** Entry by entry, the cache after [mutate] is the cache before with
    [settledQuery] applied. *)
Lemma mutate_queries p variables w k0 :
  queries (mutate p variables w).2 !! k0 =
  settledQuery p variables k0 <$> queries w !! k0.
Proof.
  rewrite mutate_unfold. unfold settle, settledQuery.
  destruct (mutationFn p variables) as [d|e]; run; unfold ret; cbn [snd];
    rewrite onSettled_queries.
  - unfold opt_onSuccess.
    assert (forall w0, queries ((if onSuccess p then log (EvOnSuccess d) else ret ())
              w0).2 = queries w0) as -> by (intros; by destruct (onSuccess p)).
    unfold callMutationFn. run. unfold ret; cbn [snd]. simpl.
    rewrite onMutate_queries, cancelQueries_queries.
    by destruct (queries w !! k0).
  - unfold opt_onError. run.
    assert (forall w0, queries ((if onError p then log (EvOnError e) else ret ())
              w0).2 = queries w0) as -> by (intros; by destruct (onError p)).
    rewrite setQueryData_queries, onMutate_previousState.
    unfold callMutationFn. run. unfold ret; cbn [snd].
    unfold lookupQuery at 2 3. simpl.
    rewrite !onMutate_queries, !cancelQueries_queries.
    unfold lookupQuery.
    case_bool_decide as Hk; simpl.
    + subst k0. destruct (queries w !! queryKey p) as [q|] eqn:Hq; simpl; [|done].
      case_bool_decide; simpl; [reflexivity|].
      rewrite onMutate_queries, cancelQueries_queries, Hq. simpl.
      unfold matchesKey. rewrite bool_decide_eq_true_2 by done.
      reflexivity.
    + by destruct (queries w !! k0).
Qed.

Lemma settledQuery_data p variables k0 q :
  q_data (settledQuery p variables k0 q) = q_data q.
Proof.
  unfold settledQuery.
  destruct (mutationFn p variables), (matchesKey (queryKey p) k0),
    (default true (shouldRefetchQuery p)); simpl; try done;
    destruct (bool_decide (k0 = queryKey p) && negb (bool_decide (q_data q = JUndefined)));
    done.
Qed.

Lemma mutate_result p variables w : (mutate p variables w).1 = mutationFn p variables.
Proof.
  rewrite mutate_unfold. unfold settle.
  destruct (mutationFn p variables); run; reflexivity.
Qed.

(** X1. A mutation, whatever its outcome, neither adds an entry to the
    cache nor removes one, and every entry holds after it the data (the
    reference) it held before: the hook writes neither the result of the
    server nor a new object into the cache. *)
Theorem mutation_keeps_entries_and_references p variables w :
  dom (queries (mutate p variables w).2) = dom (queries w)
  /\ (forall k0,
        q_data (lookupQuery k0 (mutate p variables w).2) = q_data (lookupQuery k0 w)).
Proof.
  split.
  - apply set_eq. intros k0. rewrite !elem_of_dom, mutate_queries.
    by rewrite fmap_is_Some.
  - intros k0. unfold lookupQuery. rewrite mutate_queries.
    destruct (queries w !! k0) as [q|]; simpl; [|done].
    apply settledQuery_data.
Qed.





(** X4. [mutate] settles the way the mutation function did.  The error
    callback is called exactly when the caller passed one and the mutation
    was rejected, with the error of the rejection; the success callback
    exactly when the caller passed one and the mutation resolved, with its
    result. *)
Theorem callbacks_delivered p variables w :
  (mutate p variables w).1 = mutationFn p variables
  /\ (forall error, EvOnError error ∈ newEvents p variables w <->
                    onError p = true /\ mutationFn p variables = Rejected error)
  /\ (forall data, EvOnSuccess data ∈ newEvents p variables w <->
                   onSuccess p = true /\ mutationFn p variables = Resolved data).
Proof.
  split; [apply mutate_result|].
  rewrite newEvents_eq. unfold settleEvents.
  split; intros x;
    destruct (mutationFn p variables), (onError p), (onSuccess p),
      (default true (shouldRefetchQuery p)); simpl;
    rewrite ?elem_of_cons, ?elem_of_nil; intuition congruence.
Qed.

End MutationCoverage.

(** ** Windows of usePagination *)

Section PaginationCoverage.

Import UsePagination PaginationScenario.

Lemma windowKey_eq props1 st1 props2 st2 :
  windowKey props1 st1 = windowKey props2 st2 ->
  queryKey props1 = queryKey props2
  /\ pageIndex st1 = pageIndex st2 /\ pageSize st1 = pageSize st2.
Proof.
  unfold windowKey. intros H. apply app_inj_2 in H; [|done].
  destruct H as [? H]. by inversion H.
Qed.

(** X5. Two renders ask for the same cache entry exactly when they have
    the same [queryKey], page index and page size: every window of a list
    has an entry of its own. *)
Theorem windowKey_injective props1 st1 props2 st2 :
  windowKey props1 st1 = windowKey props2 st2 <->
  queryKey props1 = queryKey props2
  /\ pageIndex st1 = pageIndex st2 /\ pageSize st1 = pageSize st2.
Proof.
  split; [apply windowKey_eq|].
  unfold windowKey. intros (-> & -> & ->). done.
Qed.

(** X6. While the fetch of one window is in flight, a render of the enabled
    hook for another window, not cached yet, with a page index that is not
    negative, calls the query function once more, for the new window; the
    fetch of the first window stays in flight. *)
Theorem window_change_starts_new_fetch props st1 st2 w pr :
  (pageIndex st1, pageSize st1) <> (pageIndex st2, pageSize st2) ->
  q_promise (lookupQuery (windowKey props st1) w) = Some pr ->
  queries w !! windowKey props st2 = None ->
  0 <= pageIndex st2 ->
  enabled props <> Some false ->
  (query props st2 w).1 = Some (nextPromise w)
  /\ trace (query props st2 w).2 =
       trace w ++ [EvQueryFn (windowKey props st2) (pageIndex st2) (pageSize st2)]
  /\ q_promise (lookupQuery (windowKey props st1) (query props st2 w).2) = Some pr.
Proof.
  intros Hne Hp Habs Hi Hen.
  assert (windowKey props st1 <> windowKey props st2) as Hk.
  { intros Heq. apply windowKey_eq in Heq as (_ & ? & ?). apply Hne. congruence. }
  assert (lookupQuery (windowKey props st2) w = emptyQuery) as Hq
    by (unfold lookupQuery; by rewrite Habs).
  destruct (query_starts props st2 w) as (Hr & Ht & _).
  { by rewrite Hq. }
  { rewrite Hq. simpl.
    assert ((pageIndex st2 >? -1) = true) as -> by (apply Z.gtb_lt; lia).
    destruct (enabled props) as [[]|]; done. }
  split; [done|]. split; [done|].
  unfold query, useQuery.
  rewrite mergeQueryOptions_queryKey, mergeQueryOptions_enabled.
  change (o_queryKey (defaultOptions props st2)) with (windowKey props st2).
  rewrite Hq. simpl.
  assert ((pageIndex st2 >? -1) = true) as -> by (apply Z.gtb_lt; lia).
  assert (default true (enabled props) = true) as ->
    by (destruct (enabled props) as [[]|]; done).
  simpl. unfold lookupQuery in *. simpl.
  by rewrite lookup_insert_ne.
Qed.

(** X6 on the users: the second page is asked for while the first loads. *)
Lemma window_change_witness :
  trace (query usersProps CoverageScenario.secondPage
           (query usersProps (initialState usersProps) emptyWorld).2).2 =
    [EvQueryFn [KStr "users"; KNum 0; KNum 10] 0 10;
     EvQueryFn [KStr "users"; KNum 1; KNum 10] 1 10].
Proof.
  exact (proj1 (proj2 (window_change_starts_new_fetch usersProps
           (initialState usersProps) CoverageScenario.secondPage
           (query usersProps (initialState usersProps) emptyWorld).2 0%nat
           ltac:(discriminate) ltac:(vm_compute; reflexivity)
           ltac:(vm_compute; reflexivity) ltac:(vm_compute; discriminate)
           ltac:(discriminate)))).
Defined.

(** X7. The hook starts on page 0 with the page size [initialPageSize],
    or 10 when that is missing or 0, so the page size is never 0 at the
    start.  The first render of a hook that is not disabled, on a cache
    without that window, calls the query function once, for that page. *)
Theorem first_render_fetches_first_page props w :
  enabled props <> Some false ->
  queries w !! windowKey props (initialState props) = None ->
  pageIndex (initialState props) = 0
  /\ pageSize (initialState props) <> 0
  /\ pageSize (initialState props) =
       match initialPageSize props with
       | Some n => if n =? 0 then 10 else n
       | None => 10
       end
  /\ trace (query props (initialState props) w).2 =
       trace w ++ [EvQueryFn (queryKey props ++ [KNum 0; KNum (pageSize (initialState props))])
                     0 (pageSize (initialState props))].
Proof.
  intros Hen Habs. split; [done|]. split.
  - simpl. destruct (initialPageSize props) as [n|]; [|done].
    destruct (n =? 0) eqn:E; [done|]. by apply Z.eqb_neq.
  - split; [done|].
    destruct (query_starts props (initialState props) w) as (_ & Ht & _).
    + unfold lookupQuery. by rewrite Habs.
    + unfold lookupQuery. rewrite Habs. simpl.
      destruct (enabled props) as [[]|]; done.
    + exact Ht.
Qed.

(** X7 on the users. *)
Lemma first_render_witness :
  trace (query usersProps (initialState usersProps) emptyWorld).2 =
    [EvQueryFn [KStr "users"; KNum 0; KNum 10] 0 10].
Proof.
  exact (proj2 (proj2 (proj2 (first_render_fetches_first_page usersProps emptyWorld
           ltac:(discriminate) ltac:(reflexivity))))).
Defined.

Lemma strict_neq_null_false v : strict_neq_null v = false <-> v = JNull.
Proof. by destruct v. Qed.

Lemma pagingField_null field d :
  pagingField field d = JNull <->
  exists r p, d = Some r /\ paging r = Some p /\ field p = JNull.
Proof.
  unfold pagingField. split.
  - destruct d as [r|]; [|done]. destruct (paging r) as [p|] eqn:E; [|done].
    intros H. by exists r, p.
  - intros (r & p & -> & -> & H). done.
Qed.

(** X8. The hook reports no next page only when a response is there, has
    paging metadata, and their [hasNextPage] is [null]; in every other
    case, before the first response too, it reports a next page.  The same
    holds for [hasPreviousPage]. *)
Theorem hasNextPage_false_iff_null st q :
  (r_hasNextPage (usePagination st q) = false <->
   exists r p, q_response q = Some r /\ paging r = Some p /\ hasNextPage p = JNull)
  /\ (r_hasPreviousPage (usePagination st q) = false <->
      exists r p, q_response q = Some r /\ paging r = Some p /\ hasPreviousPage p = JNull).
Proof.
  unfold usePagination; simpl.
  rewrite orb_false_r, !strict_neq_null_false, !pagingField_null. done.
Qed.

(** X9. [totalPages] is never [undefined] or [null]: a reported number is
    returned as it is, and without a response the hook returns 0 pages and
    an [undefined] total. *)
Theorem totalPages_falls_back_to_zero st q :
  r_totalPages (usePagination st q) <> JUndefined
  /\ r_totalPages (usePagination st q) <> JNull
  /\ (forall n, pagingField totalPages (q_response q) = JNum n ->
                r_totalPages (usePagination st q) = JNum n)
  /\ (q_response q = None -> r_totalPages (usePagination st q) = JNum 0
                             /\ r_total (usePagination st q) = JUndefined).
Proof.
  unfold usePagination; simpl. unfold js_or.
  split; [|split; [|split]].
  - destruct (pagingField totalPages (q_response q)) as [| |[]|n|s|]; simpl; try done.
    + by destruct (n =? 0).
    + by destruct (String.eqb s "").
  - destruct (pagingField totalPages (q_response q)) as [| |[]|n|s|]; simpl; try done.
    + by destruct (n =? 0).
    + by destruct (String.eqb s "").
  - intros n ->. simpl. destruct (n =? 0) eqn:E; simpl; [|done].
    apply Z.eqb_eq in E. by subst.
  - by intros ->.
Qed.


End PaginationCoverage.

(** ** Events and sequences of calls of useSocket *)

Section SocketCoverage.

Import UseSocket SocketScenario UseSocketEvents.

Lemma runHandler_eventData st h : eventData (runHandler st h) = eventData st.
Proof. by destruct h. Qed.

Lemma runHandler_socketRef st h : socketRef (runHandler st h) = socketRef st.
Proof. by destruct h. Qed.

Lemma fire_eventData event st : eventData (fire event st) = eventData st.
Proof.
  unfold fire. generalize (registered event st) as hs. intros hs.
  revert st. induction hs as [|h hs IH]; intros st; simpl; [done|].
  by rewrite IH, runHandler_eventData.
Qed.

Lemma runOp_eventData st o st' :
  runOp st o = Ok st' -> eventData st' = eventData st.
Proof.
  destruct o; simpl; unfold emit, on, off, reconnect, cleanup, socket_emit.
  - intros Hr. by inversion Hr.
  - intros Hr. inversion Hr. by destruct (socketRef st).
  - destruct (socketRef st) as [s|]; [|intros Hr; by inversion Hr].
    case_bool_decide; [done|]. intros Hr. by inversion Hr.
  - destruct (socketRef st); intros Hr; by inversion Hr.
  - destruct (socketRef st); intros Hr; by inversion Hr.
  - destruct (socketRef st); intros Hr; by inversion Hr.
  - intros Hr. inversion Hr. apply fire_eventData.
Qed.

(** X11. No call of the hook and no event of the socket writes
    [eventData]: after any sequence of effect runs, clean-ups, [emit], [on],
    [off], [reconnect] and fired events that does not throw, it is what it
    was, so a hook that started with the empty object returns the empty
    object for ever. *)
Theorem eventData_never_written ops st st' :
  runOps st ops = Ok st' -> eventData st' = eventData st.
Proof.
  revert st. induction ops as [|o ops IH]; intros st; simpl.
  - intros H. by inversion H.
  - destruct (runOp st o) as [st1|m] eqn:E; simpl; [|done].
    intros H. rewrite (IH _ H). by apply runOp_eventData in E.
Qed.

(** X11 after a mount, a registration and a [connect]. *)
Lemma eventData_never_written_witness :
  eventData
    (fire "connect"
       {| socketRef :=
            Some (socket_on "message" (Callback 1)
                    (socket_on "disconnect" (SetIsConnected false)
                       (socket_on "connect" (SetIsConnected true) (io "ws://localhost"))));
          isConnected := false; eventData := ∅ |}) = eventData initialState.
Proof.
  exact (eventData_never_written
           [OpEffect "ws://localhost"; OpOn "message" (Callback 1); OpFire "connect"]
           initialState _ eq_refl).
Defined.

(** X12. After the effect, a [connect] of the socket sets [isConnected]
    and a [disconnect] clears it.  A caller that calls [off("connect")]
    removes the listener of the hook with it: a later [connect] leaves
    [isConnected] as it was, while a [disconnect] still clears it. *)
Theorem off_connect_stops_tracking url st :
  isConnected (fire "connect" (effect url st)) = true
  /\ isConnected (fire "disconnect" (effect url st)) = false
  /\ exists st', off "connect" (effect url st) = Ok st'
                 /\ isConnected (fire "connect" st') = isConnected st
                 /\ isConnected (fire "disconnect" st') = false.
Proof.
  split; [done|]. split; [done|].
  eexists. split; [reflexivity|]. split; reflexivity.
Qed.



(** X14. The clean-up disconnects the socket but keeps it in the ref,
    with all its listeners: after it the guards of the hook still pass, and
    [on] still registers a listener. *)
Theorem cleanup_keeps_socket st s event callback :
  socketRef st = Some s ->
  socketRef (cleanup st) = Some (socket_disconnect s)
  /\ registered event (cleanup st) = registered event st
  /\ exists st', on event callback (cleanup st) = Ok st'
                 /\ registered event st' = registered event st ++ [callback].
Proof.
  intros Hs. unfold cleanup, registered, on. rewrite Hs. simpl.
  split; [done|]. split; [done|].
  eexists. split; [reflexivity|]. simpl. by rewrite lookup_insert_eq.
Qed.

(** X14 on the mounted hook. *)
Lemma cleanup_keeps_socket_witness :
  registered "connect" (cleanup mounted) = registered "connect" mounted.
Proof.
  exact (proj1 (proj2 (cleanup_keeps_socket mounted _ "connect" (Callback 1) eq_refl))).
Defined.

End SocketCoverage.

(** ** useToggle *)

Section ToggleCoverage.

Import UseToggle.

(** X15. [toggleValue] with a boolean sets that boolean, however often
    it is called; with anything else (no argument, a click event) it flips
    the value, and flipping twice gives the value back. *)
Theorem toggleValue_sets_or_flips newValue currentValue :
  (forall b, newValue = JBool b ->
             toggleValue newValue currentValue = b
             /\ toggleValue newValue (toggleValue newValue currentValue) = b)
  /\ ((forall b, newValue <> JBool b) ->
      toggleValue newValue currentValue = negb currentValue
      /\ toggleValue newValue (toggleValue newValue currentValue) = currentValue).
Proof.
  split.
  - by intros b ->.
  - intros H. destruct newValue; simpl; rewrite ?negb_involutive; try done.
    by destruct (H b).
Qed.

End ToggleCoverage.

(** ** useDebounce *)

Section DebounceCoverage.

Import UseDebounce UseDebounceInvariant.

Lemma render_settledOrPending v d st v0 :
  settledOrPending v0 st -> settledOrPending v (render v d st).
Proof.
  intros [[d0 Hd] Ht]. unfold render. case_decide as E.
  - rewrite Hd in E. inversion E; subst. split; [eauto|done].
  - split; simpl; [by exists d|]. left. by eexists.
Qed.

Lemma timeout_settledOrPending v st :
  settledOrPending v st ->
  settledOrPending v (timeout st) /\ debouncedValue (timeout st) = v.
Proof.
  intros [Hd [[d Ht]|[Ht Hv]]]; unfold timeout; rewrite Ht; simpl.
  - split; [|done]. split; [done|]. by right.
  - split; [|done]. split; [done|]. by right.
Qed.

Lemma steps_settledOrPending steps v st :
  settledOrPending v st -> settledOrPending (lastValue v steps) (foldl step st steps).
Proof.
  revert v st. induction steps as [|[v' d'|] steps IH]; intros v st H; simpl; [done| |].
  - apply IH. by apply (render_settledOrPending _ _ _ v).
  - apply IH. by apply timeout_settledOrPending.
Qed.

Lemma first_render_settledOrPending v d :
  settledOrPending v (render v d (initialState v)).
Proof.
  unfold render. simpl.
  split; simpl; [by exists d|]. left. by eexists.
Qed.

(** X16. Whatever renders and timeouts came before, once the pending
    timeout has fired the debounced value is the value of the last
    render. *)
Theorem debounced_value_after_timeout value delay steps :
  debouncedValue (useDebounce value delay (steps ++ [Timeout])) = lastValue value steps.
Proof.
  unfold useDebounce. rewrite foldl_app. simpl.
  apply timeout_settledOrPending, steps_settledOrPending, first_render_settledOrPending.
Qed.

(** X17. As long as no timeout fires, the debounced value stays the value
    of the first render, however often the value changes; one timeout is
    pending, for the value of the last render, with a delay that is never
    0 or missing (500 stands in). *)
Theorem debounced_value_waits_for_timeout value delay steps :
  Forall (fun s => s <> Timeout) steps ->
  debouncedValue (useDebounce value delay steps) = value
  /\ exists d, timer (useDebounce value delay steps) = Some (d, lastValue value steps)
               /\ truthy d = true.
Proof.
  unfold useDebounce.
  assert (forall st v, debouncedValue st = value ->
            (exists d, timer st = Some (d, v) /\ truthy d = true) ->
            (exists d, deps st = Some (v, d)) ->
            Forall (fun s => s <> Timeout) steps ->
            debouncedValue (foldl step st steps) = value
            /\ exists d, timer (foldl step st steps) = Some (d, lastValue v steps)
                         /\ truthy d = true) as Hgen.
  { induction steps as [|[v' d'|] steps IH]; intros st v Hv Ht Hd Hall; simpl.
    - done.
    - inversion Hall; subst. apply IH; try done.
      + unfold render. by case_decide.
      + unfold render. case_decide as E.
        * destruct Hd as [d0 Hd]. rewrite Hd in E. inversion E; subst. done.
        * simpl. eexists. split; [done|]. unfold js_or.
          by destruct (truthy d') eqn:Et.
      + unfold render. case_decide as E; [by eexists|]. simpl. by eexists.
    - inversion Hall; subst. done. }
  intros Hall. apply Hgen; try done.
  - unfold render; simpl. eexists. split; [done|].
    unfold js_or. by destruct (truthy delay) eqn:Et.
  - unfold render; simpl. by eexists.
Qed.

(** X17 on a text typed letter by letter. *)
Lemma debounced_value_waits_witness :
  debouncedValue (useDebounce (JStr "a") JUndefined
                    [Render (JStr "ab") JUndefined; Render (JStr "abc") JUndefined]) = JStr "a".
Proof.
  refine (proj1 (debounced_value_waits_for_timeout (JStr "a") JUndefined
                   [Render (JStr "ab") JUndefined; Render (JStr "abc") JUndefined] _)).
  repeat constructor; discriminate.
Defined.

End DebounceCoverage.

(** ** useArray *)

Section ArrayCoverage.

Import UseArray.
Context {A : Type}.
Implicit Types a : list A.

Lemma relativeIndex_nonneg len i :
  0 <= i -> relativeIndex len i = Z.min i len.
Proof.
  intros Hi. unfold relativeIndex.
  by assert ((i <? 0) = false) as -> by (apply Z.ltb_ge; lia).
Qed.

Lemma relativeIndex_neg len i :
  i < 0 -> relativeIndex len i = Z.max (len + i) 0.
Proof.
  intros Hi. unfold relativeIndex.
  by assert ((i <? 0) = true) as -> by (apply Z.ltb_lt; lia).
Qed.

Lemma slice_prefix a i :
  0 <= i -> slice a 0 i = take (Z.to_nat i) a.
Proof.
  intros Hi. unfold slice. rewrite !relativeIndex_nonneg by lia.
  rewrite (Z.min_l 0) by lia. rewrite Z.sub_0_r.
  change (Z.to_nat 0) with 0%nat. rewrite drop_0.
  destruct (Z.le_ge_cases i (Z.of_nat (length a))).
  - by rewrite Z.min_l.
  - rewrite Z.min_r, Nat2Z.id by lia.
    rewrite (take_ge a (length a)) by lia.
    rewrite (take_ge a (Z.to_nat i)) by lia. done.
Qed.

Lemma slice_suffix a i :
  0 <= i -> slice a i (Z.of_nat (length a)) = drop (Z.to_nat i) a.
Proof.
  intros Hi. unfold slice. rewrite !relativeIndex_nonneg by lia.
  rewrite Z.min_id.
  destruct (Z.le_ge_cases i (Z.of_nat (length a))).
  - rewrite Z.min_l by lia. apply take_ge. rewrite length_drop. lia.
  - rewrite Z.min_r by lia. rewrite Nat2Z.id.
    rewrite (drop_ge a (length a)) by lia.
    rewrite (drop_ge a (Z.to_nat i)) by lia. apply take_nil.
Qed.

(** X18. [update] with an index inside the array replaces the element at
    that index and nothing else; the length stays. *)
Theorem update_in_range index newElement a :
  0 <= index < Z.of_nat (length a) ->
  update index newElement a = <[Z.to_nat index := newElement]> a
  /\ length (update index newElement a) = length a.
Proof.
  intros Hi.
  assert (update index newElement a = <[Z.to_nat index := newElement]> a) as ->.
  { unfold update. rewrite slice_prefix, slice_suffix by lia.
    rewrite insert_take_drop by lia.
    replace (Z.to_nat (index + 1)) with (S (Z.to_nat index)) by lia. done. }
  split; [done|]. apply length_insert.
Qed.

(** X19. [remove] with an index inside the array deletes the element at
    that index and nothing else; the array gets one shorter. *)
Theorem remove_in_range index a :
  0 <= index < Z.of_nat (length a) ->
  remove index a = delete (Z.to_nat index) a
  /\ length (remove index a) = Nat.pred (length a).
Proof.
  intros Hi.
  assert (remove index a = delete (Z.to_nat index) a) as ->.
  { unfold remove. rewrite slice_prefix, slice_suffix by lia.
    rewrite delete_take_drop.
    replace (Z.to_nat (index + 1)) with (S (Z.to_nat index)) by lia. done. }
  split; [done|]. rewrite length_delete; [lia|].
  apply lookup_lt_is_Some. lia.
Qed.

(** X20. Past the end nothing is refused: [update] with an index at or
    beyond the length appends the element, as [push] does, and [remove]
    leaves the array as it is; removing at the old length what [push] added
    gives the array back. *)
Theorem update_remove_past_end index newElement a :
  Z.of_nat (length a) <= index ->
  update index newElement a = push newElement a
  /\ remove index a = a
  /\ remove (Z.of_nat (length a)) (push newElement a) = a.
Proof.
  intros Hi.
  assert (forall j, Z.of_nat (length a) <= j -> slice a 0 j = a) as Hp.
  { intros j Hj. rewrite slice_prefix by lia. apply take_ge. lia. }
  assert (forall j, Z.of_nat (length a) <= j -> slice a j (Z.of_nat (length a)) = []) as Hs.
  { intros j Hj. rewrite slice_suffix by lia. apply drop_ge. lia. }
  unfold update, remove, push. split; [|split].
  - rewrite Hp, Hs by lia. by rewrite app_nil_r.
  - rewrite Hp, Hs by lia. by rewrite app_nil_r.
  - rewrite slice_prefix, slice_suffix by lia.
    rewrite Nat2Z.id, take_app_length.
    rewrite drop_ge; [by rewrite app_nil_r|].
    rewrite length_app. simpl. lia.
Qed.

(** X21. A negative index is not refused.  Below minus the length,
    [update] puts the element in front and [remove] changes nothing; with
    -1, [update] gives the array without its last element, the new element
    and then the whole array again, and [remove] the same without the
    element; with an index in between, both act on the element counted from
    the end. *)
Theorem update_remove_negative index newElement a :
  index < 0 ->
  update index newElement a =
    (if index <? - Z.of_nat (length a) then newElement :: a
     else if index =? -1
          then take (Z.to_nat (Z.of_nat (length a) - 1)) a ++ newElement :: a
          else <[Z.to_nat (Z.of_nat (length a) + index) := newElement]> a)
  /\ remove index a =
    (if index <? - Z.of_nat (length a) then a
     else if index =? -1
          then take (Z.to_nat (Z.of_nat (length a) - 1)) a ++ a
          else delete (Z.to_nat (Z.of_nat (length a) + index)) a).
Proof.
  intros Hi. unfold update, remove.
  destruct (index <? - Z.of_nat (length a)) eqn:Elow.
  - apply Z.ltb_lt in Elow.
    assert (slice a 0 index = []) as ->.
    { unfold slice. rewrite (relativeIndex_neg _ index), (relativeIndex_nonneg _ 0) by lia.
      rewrite Z.max_r, (Z.min_l 0) by lia. done. }
    assert (slice a (index + 1) (Z.of_nat (length a)) = a) as ->.
    { destruct (Z.eq_dec (index + 1) 0) as [E0|E0].
      - rewrite E0, slice_suffix by lia. done.
      - unfold slice. rewrite (relativeIndex_neg _ (index + 1)) by lia.
        rewrite relativeIndex_nonneg by lia.
        rewrite Z.min_id, Z.max_r by lia. rewrite Z.sub_0_r.
        change (Z.to_nat 0) with 0%nat. rewrite drop_0. apply take_ge. lia. }
    done.
  - apply Z.ltb_ge in Elow.
    assert (slice a 0 index = take (Z.to_nat (Z.of_nat (length a) + index)) a) as ->.
    { unfold slice. rewrite (relativeIndex_neg _ index), (relativeIndex_nonneg _ 0) by lia.
      rewrite Z.max_l, (Z.min_l 0) by lia. rewrite Z.sub_0_r.
      change (Z.to_nat 0) with 0%nat. by rewrite drop_0. }
    destruct (index =? -1) eqn:E.
    + apply Z.eqb_eq in E. subst index.
      change (-1 + 1) with 0. rewrite slice_suffix by lia.
      change (Z.to_nat 0) with 0%nat. rewrite drop_0.
      replace (Z.of_nat (length a) + -1) with (Z.of_nat (length a) - 1) by lia. done.
    + apply Z.eqb_neq in E.
      assert (slice a (index + 1) (Z.of_nat (length a)) =
              drop (S (Z.to_nat (Z.of_nat (length a) + index))) a) as ->.
      { unfold slice. rewrite (relativeIndex_neg _ (index + 1)) by lia.
        rewrite relativeIndex_nonneg by lia.
        rewrite Z.min_id, Z.max_l by lia.
        replace (Z.to_nat (Z.of_nat (length a) + (index + 1)))
          with (S (Z.to_nat (Z.of_nat (length a) + index))) by lia.
        apply take_ge. rewrite length_drop. lia. }
      split.
      * rewrite insert_take_drop by lia. done.
      * by rewrite delete_take_drop.
Qed.

End ArrayCoverage.

Section ArrayWitnesses.

Import UseArray.

(** X18 on [update(1, 10)] of [[1, 2, 3]]. *)
Lemma update_in_range_witness :
  update 1 10 [1; 2; 3] = [1; 10; 3].
Proof.
  exact (proj1 (update_in_range 1 10 [1; 2; 3] ltac:(simpl; lia))).
Defined.

(** X19 on [remove(1)] of [[1, 2, 3]]. *)
Lemma remove_in_range_witness :
  remove 1 [1; 2; 3] = [1; 3].
Proof.
  exact (proj1 (remove_in_range 1 [1; 2; 3] ltac:(simpl; lia))).
Defined.

(** X20 on [update(5, 9)] of [[1, 2, 3]]. *)
Lemma update_remove_past_end_witness :
  update 5 9 [1; 2; 3] = [1; 2; 3; 9].
Proof.
  exact (proj1 (update_remove_past_end 5 9 [1; 2; 3] ltac:(simpl; lia))).
Defined.

(** X21 on [update(-1, 9)] of [[1, 2, 3]]. *)
Lemma update_negative_witness :
  update (-1) 9 [1; 2; 3] = [1; 2; 9; 1; 2; 3].
Proof.
  exact (proj1 (update_remove_negative (-1) 9 [1; 2; 3] ltac:(lia))).
Defined.

End ArrayWitnesses.

(** ** useStateWithHistory *)

Section HistoryCoverage.

Import UseStateWithHistory.

Lemma trim_drop capacity h :
  trim capacity h = drop (Z.to_nat (Z.of_nat (length h) - capacity)) h.
Proof.
  induction h as [|x h IH]; [by rewrite drop_nil|].
  cbn [trim]. destruct (Z.of_nat (length (x :: h)) >? capacity) eqn:E.
  - apply Z.gtb_lt in E. rewrite IH. simpl length in *.
    replace (Z.to_nat (Z.of_nat (S (length h)) - capacity))
      with (S (Z.to_nat (Z.of_nat (length h) - capacity))) by lia.
    done.
  - assert (Z.of_nat (length (x :: h)) <= capacity) as Hle.
    { destruct (Z.gtb_spec (Z.of_nat (length (x :: h))) capacity); [done|lia]. }
    replace (Z.to_nat (Z.of_nat (length (x :: h)) - capacity)) with 0%nat by lia.
    done.
Qed.

Lemma at_last h v : at_ (h ++ [v]) (Z.of_nat (length (h ++ [v])) - 1) = v.
Proof.
  unfold at_. rewrite length_app. simpl.
  assert ((Z.of_nat (length h + 1) - 1 <? 0) = false) as -> by (apply Z.ltb_ge; lia).
  replace (Z.to_nat (Z.of_nat (length h + 1) - 1)) with (length h) by lia.
  by rewrite lookup_app_r, Nat.sub_diag by lia.
Qed.

Lemma trim_snoc capacity h v :
  1 <= capacity ->
  exists h', trim capacity (h ++ [v]) = h' ++ [v]
             /\ Z.of_nat (length (h' ++ [v])) <= capacity.
Proof.
  intros Hc. rewrite trim_drop. rewrite length_app. simpl.
  exists (drop (Z.to_nat (Z.of_nat (length h + 1) - capacity)) h).
  split.
  - rewrite drop_app_le; [done|lia].
  - rewrite length_app, length_drop. simpl. lia.
Qed.

Lemma set_consistent capacity v st :
  1 <= capacity ->
  consistent st ->
  consistent (set capacity v st)
  /\ (Z.of_nat (length (history st)) <= capacity ->
      Z.of_nat (length (history (set capacity v st))) <= capacity).
Proof.
  intros Hc [Hp Hv]. unfold set. case_decide as E.
  - split; [|done]. split; simpl; [done|]. by rewrite E.
  - match goal with |- context [trim capacity (?h ++ [?x])] =>
      destruct (trim_snoc capacity h x Hc) as (h' & -> & Hlen) end.
    split; [|done]. split; simpl.
    + rewrite length_app in *. simpl in *. lia.
    + by rewrite at_last.
Qed.

Lemma at_in_range h i :
  0 <= i < Z.of_nat (length h) -> h !! Z.to_nat i = Some (at_ h i).
Proof.
  intros Hi. unfold at_.
  assert ((i <? 0) = false) as -> by (apply Z.ltb_ge; lia).
  destruct (lookup_lt_is_Some_2 h (Z.to_nat i)) as [x ->]; [lia|done].
Qed.

Lemma runOp_consistent capacity o st :
  1 <= capacity ->
  consistent st /\ Z.of_nat (length (history st)) <= capacity ->
  consistent (runOp capacity st o)
  /\ Z.of_nat (length (history (runOp capacity st o))) <= capacity.
Proof.
  intros Hc [Hst Hlen]. destruct o as [v| | |index]; simpl.
  - destruct (set_consistent capacity v st Hc Hst). auto.
  - unfold back. destruct (pointer st <=? 0) eqn:E; [done|].
    apply Z.leb_gt in E. destruct Hst as [Hp _]. split; [|done].
    split; simpl; [lia|done].
  - unfold forward. destruct (pointer st >=? _) eqn:E; [done|].
    assert (pointer st < Z.of_nat (length (history st)) - 1) as Hlt.
    { destruct (Z.geb_spec (pointer st) (Z.of_nat (length (history st)) - 1)); [done|lia]. }
    destruct Hst as [Hp _]. split; [|done]. split; simpl; [lia|done].
  - unfold go. destruct ((index <? 0) || _) eqn:E; [done|].
    apply orb_false_iff in E as [E1 E2]. apply Z.ltb_ge in E1.
    assert (index <= Z.of_nat (length (history st)) - 1) as Hle.
    { destruct (Z.gtb_spec index (Z.of_nat (length (history st)) - 1)); [done|lia]. }
    split; [|done]. split; simpl; [lia|done].
Qed.

(** X22. With a capacity of at least 1, after any sequence of [set],
    [back], [forward] and [go] the pointer is inside the history, the state
    shows the entry under the pointer, and the history has at most
    [capacity] entries. *)
Theorem history_stays_consistent capacity defaultValue ops :
  1 <= capacity ->
  let st := foldl (runOp capacity) (initialState defaultValue) ops in
  0 <= pointer st < Z.of_nat (length (history st))
  /\ history st !! Z.to_nat (pointer st) = Some (value st)
  /\ Z.of_nat (length (history st)) <= capacity.
Proof.
  intros Hc st.
  assert (consistent st /\ Z.of_nat (length (history st)) <= capacity) as [[Hp Hv] Hl].
  { unfold st. clear st.
    assert (consistent (initialState defaultValue)
            /\ Z.of_nat (length (history (initialState defaultValue))) <= capacity) as H0.
    { split; [|simpl; lia]. split; simpl; [lia|done]. }
    revert H0. generalize (initialState defaultValue) as s.
    induction ops as [|o ops IH]; intros s Hs; simpl; [done|].
    apply IH. by apply runOp_consistent. }
  split; [done|]. split; [|done]. rewrite Hv. by apply at_in_range.
Qed.

(** X22 on three values set with room for two. *)
Lemma history_stays_consistent_witness :
  history (foldl (runOp 2) (initialState (JNum 1))
             [OpSet (SetValue (JNum 2)); OpSet (SetValue (JNum 3))]) = [JNum 2; JNum 3]
  /\ Z.of_nat (length (history (foldl (runOp 2) (initialState (JNum 1))
             [OpSet (SetValue (JNum 2)); OpSet (SetValue (JNum 3))]))) <= 2.
Proof.
  split; [reflexivity|].
  exact (proj2 (proj2 (history_stays_consistent 2 (JNum 1)
           [OpSet (SetValue (JNum 2)); OpSet (SetValue (JNum 3))] ltac:(lia)))).
Defined.

(** X23. When the state is consistent, a [back] that moves is undone by
    [forward], and a [forward] that moves is undone by [back]. *)
Theorem back_forward_round_trip st :
  consistent st ->
  (0 < pointer st -> forward (back st) = st)
  /\ (pointer st < Z.of_nat (length (history st)) - 1 -> back (forward st) = st).
Proof.
  intros [Hp Hv]. split; intros H.
  - unfold back. assert ((pointer st <=? 0) = false) as -> by (apply Z.leb_gt; lia).
    unfold forward. simpl.
    assert ((pointer st - 1 >=? Z.of_nat (length (history st)) - 1) = false) as ->.
    { destruct (Z.geb_spec (pointer st - 1) (Z.of_nat (length (history st)) - 1)); [lia|done]. }
    replace (pointer st - 1 + 1) with (pointer st) by lia.
    rewrite <- Hv. by destruct st.
  - unfold forward.
    assert ((pointer st >=? Z.of_nat (length (history st)) - 1) = false) as ->.
    { destruct (Z.geb_spec (pointer st) (Z.of_nat (length (history st)) - 1)); [lia|done]. }
    unfold back. simpl.
    assert ((pointer st + 1 <=? 0) = false) as -> by (apply Z.leb_gt; lia).
    replace (pointer st + 1 - 1) with (pointer st) by lia.
    rewrite <- Hv. by destruct st.
Qed.

(** X23 on a history of three values with the pointer in the middle. *)
Lemma back_forward_witness :
  forward (back CoverageScenario.threeValues) = CoverageScenario.threeValues.
Proof.
  refine (proj1 (back_forward_round_trip CoverageScenario.threeValues _) _).
  - split; [simpl; lia|reflexivity].
  - simpl. lia.
Defined.

(** X24. Setting a value that differs from the current one, in a
    consistent state, drops the entries after the pointer, appends the
    value, trims the history from the front to the capacity and puts the
    pointer on the last entry: there is nothing to go forward to. *)
Theorem set_drops_redo capacity v st :
  1 <= capacity ->
  consistent st ->
  resolve v (value st) <> value st ->
  let st' := set capacity v st in
  value st' = resolve v (value st)
  /\ history st' =
       trim capacity (take (Z.to_nat (pointer st + 1)) (history st) ++ [resolve v (value st)])
  /\ pointer st' = Z.of_nat (length (history st')) - 1
  /\ forward st' = st'.
Proof.
  intros Hc [Hp Hv] Hne st'. unfold st', set.
  rewrite decide_False by (rewrite <- Hv; congruence).
  assert ((if pointer st <? Z.of_nat (length (history st)) - 1
           then spliceFrom (pointer st + 1) (history st)
           else history st) = take (Z.to_nat (pointer st + 1)) (history st)) as ->.
  { destruct (pointer st <? _) eqn:E.
    - unfold spliceFrom, UseArray.relativeIndex.
      assert ((pointer st + 1 <? 0) = false) as -> by (apply Z.ltb_ge; lia).
      by rewrite Z.min_l by lia.
    - apply Z.ltb_ge in E. symmetry. apply take_ge. lia. }
  simpl. split; [done|]. split; [done|]. split; [done|].
  unfold forward. simpl.
  assert (forall x, (x >=? x) = true) as Hge.
  { intros x. destruct (Z.geb_spec x x); [done|lia]. }
  by rewrite Hge.
Qed.

(** X24 on a new value set after one step back: the third value is gone. *)
Lemma set_drops_redo_witness :
  history (set 10 (SetValue (JNum 7)) CoverageScenario.threeValues) =
    [JNum 1; JNum 2; JNum 7].
Proof.
  refine (eq_trans (proj1 (proj2 (set_drops_redo 10 (SetValue (JNum 7))
            CoverageScenario.threeValues _ _ _))) _).
  - lia.
  - split; [simpl; lia|reflexivity].
  - discriminate.
  - reflexivity.
Defined.



End HistoryCoverage.

(** ** usePrevious *)

Section PreviousCoverage.

Import UsePrevious.

Lemma render_current r v : currentRef (render r v) = v.
Proof. unfold render. by case_decide. Qed.

Lemma foldl_render_current r vs :
  currentRef (foldl render r vs) = default (currentRef r) (last vs).
Proof.
  revert r. induction vs as [|v vs IH]; intros r; [done|].
  simpl. rewrite IH, render_current.
  destruct vs as [|v' vs']; [done|].
  change (last (v :: v' :: vs')) with (last (v' :: vs')).
  destruct (last (v' :: vs')) eqn:E; [done|]. by apply last_None in E.
Qed.

Lemma foldl_render_same r n :
  foldl render r (replicate n (currentRef r)) = r.
Proof.
  induction n as [|n IH]; [done|]. simpl.
  unfold render at 2. by rewrite decide_True.
Qed.

Lemma foldl_render_invariant r vs :
  (previousRef r = JUndefined \/ previousRef r <> currentRef r) ->
  previousRef (foldl render r vs) = JUndefined
  \/ previousRef (foldl render r vs) <> currentRef (foldl render r vs).
Proof.
  revert r. induction vs as [|v vs IH]; intros r H; [done|].
  simpl. apply IH. unfold render. case_decide as E; simpl; [done|]. by right.
Qed.

(** X26. The value the hook returns is [undefined] or differs from the
    current value; the current value is that of the last render; and once
    the value has changed from [a] to [b], the hook returns [a] for as long
    as the component renders with [b]. *)
Theorem previous_is_last_different_value value later :
  (previousRef (usePrevious value later) = JUndefined
   \/ previousRef (usePrevious value later) <> currentRef (usePrevious value later))
  /\ currentRef (usePrevious value later) = default value (last later)
  /\ (forall before a b n,
        later = before ++ a :: replicate (S n) b -> a <> b ->
        previousRef (usePrevious value later) = a).
Proof.
  unfold usePrevious.
  assert (render (initialRefs value) value = initialRefs value) as ->
    by (unfold render; by rewrite decide_True).
  split; [apply foldl_render_invariant; by left|].
  split; [apply foldl_render_current|].
  intros before a b n -> Hne.
  rewrite foldl_app. simpl.
  set (r := foldl render (initialRefs value) before).
  assert (currentRef (render r a) = a) as Ha by apply render_current.
  set (ra := render r a) in *.
  assert (render ra b = {| currentRef := b; previousRef := a |}) as Hb.
  { unfold render. rewrite decide_False by congruence. by rewrite Ha. }
  rewrite Hb.
  change b with (currentRef {| currentRef := b; previousRef := a |}) at 2.
  by rewrite foldl_render_same.
Qed.

End PreviousCoverage.

(** ** useUpdateEffect *)

Section UpdateEffectCoverage.

Import UseUpdateEffect.

(** X27. Over [n] runs of the effect the callback is called [n - 1]
    times: the first run is skipped, every later one calls it. *)
Theorem callback_skips_first_run n :
  calls (Nat.iter n runEffect initialState) = Nat.pred n
  /\ firstRenderRef (Nat.iter n runEffect initialState) = bool_decide (n = 0%nat).
Proof.
  induction n as [|n [IHc IHf]]; [done|].
  simpl. unfold runEffect at 1 3. rewrite IHf, IHc.
  destruct n; simpl; done.
Qed.

End UpdateEffectCoverage.

(** ** useStorage *)

Section StorageCoverage.

Import UseStorage UseStorageMount.

Variable stringify : JsValue -> string.
Variable parse : string -> option JsValue.

Lemma mount_after_effect key v defaultValue storageObject :
  v <> JUndefined ->
  parse (stringify v) = Some v ->
  mount stringify parse key defaultValue (effect stringify key v storageObject) =
    Some (v, effect stringify key v storageObject)
  /\ effect stringify key v storageObject = <[key := stringify v]> storageObject.
Proof.
  intros Hv Hp. unfold mount, initialValue.
  assert (effect stringify key v storageObject = <[key := stringify v]> storageObject) as ->
    by (by destruct v).
  rewrite lookup_insert_eq, Hp. split; [|done].
  f_equal. f_equal. destruct v; try done; simpl; by rewrite insert_insert_eq.
Qed.

(** X28. After [setValue(v)] with a value that is not [undefined] and
    that [JSON.parse] reads back from its [JSON.stringify], a new mount of
    the hook under the same key starts with [v], whatever its default, and
    leaves the storage as it is; the other keys of the storage were not
    touched. *)
Theorem stored_value_survives_remount key v defaultValue storageObject :
  v <> JUndefined ->
  parse (stringify v) = Some v ->
  let s1 := (setValue stringify key v storageObject).2 in
  mount stringify parse key defaultValue s1 = Some (v, s1)
  /\ (forall other, other <> key -> s1 !! other = storageObject !! other).
Proof.
  intros Hv Hp s1. unfold s1, setValue. simpl.
  destruct (mount_after_effect key v defaultValue storageObject Hv Hp) as [Hm He].
  split; [done|].
  intros other Hne. rewrite He. by rewrite lookup_insert_ne.
Qed.

(** X29. The first mount under a key that is not stored writes its
    default to the storage, so a later mount with another default still
    starts with the first default. *)
Theorem first_default_sticks key defaultValue other storageObject :
  storageObject !! key = None ->
  defaultOf defaultValue <> JUndefined ->
  parse (stringify (defaultOf defaultValue)) = Some (defaultOf defaultValue) ->
  exists s1,
    mount stringify parse key defaultValue storageObject = Some (defaultOf defaultValue, s1)
    /\ mount stringify parse key other s1 = Some (defaultOf defaultValue, s1).
Proof.
  intros Hk Hv Hp. unfold mount at 1. unfold initialValue. rewrite Hk.
  assert ((match defaultValue with Lazy f => Some (f ()) | Plain v => Some v end)
          = Some (defaultOf defaultValue)) as -> by (by destruct defaultValue).
  eexists. split; [reflexivity|].
  by apply mount_after_effect.
Qed.

(** X30. [remove] sets the value to [undefined] and deletes the key from
    the storage, so the next mount starts with its default again.  A stored
    text that [JSON.parse] rejects makes the mount throw; the default is not
    used in its place. *)
Theorem remove_restores_default key defaultValue storageObject :
  let s1 := (remove stringify key storageObject).2 in
  (remove stringify key storageObject).1 = JUndefined
  /\ s1 !! key = None
  /\ initialValue parse key defaultValue s1 = Some (defaultOf defaultValue)
  /\ (forall jsonValue, storageObject !! key = Some jsonValue -> parse jsonValue = None ->
        mount stringify parse key defaultValue storageObject = None).
Proof.
  intros s1. unfold s1, remove, setValue, initialValue, mount, initialValue. simpl.
  rewrite lookup_delete_eq. split; [done|]. split; [done|].
  split; [by destruct defaultValue|].
  intros j -> ->. done.
Qed.

End StorageCoverage.

Section StorageWitnesses.

Import UseStorage UseStorageMount.

(** X28 on a stored name. *)
Lemma stored_value_survives_witness :
  mount stringifyString parseString "name" (Plain (JStr "John"))
    (setValue stringifyString "name" (JStr "Jane") ∅).2
  = Some (JStr "Jane", (setValue stringifyString "name" (JStr "Jane") ∅).2).
Proof.
  refine (proj1 (stored_value_survives_remount stringifyString parseString
                   "name" (JStr "Jane") (Plain (JStr "John")) ∅ _ _)).
  - discriminate.
  - reflexivity.
Defined.

(** X29 on two defaults for a name. *)
Lemma first_default_sticks_witness :
  exists s1,
    mount stringifyString parseString "name" (Plain (JStr "John")) ∅ = Some (JStr "John", s1)
    /\ mount stringifyString parseString "name" (Plain (JStr "Jane")) s1 = Some (JStr "John", s1).
Proof.
  refine (first_default_sticks stringifyString parseString
            "name" (Plain (JStr "John")) (Plain (JStr "Jane")) ∅ _ _ _).
  - reflexivity.
  - discriminate.
  - reflexivity.
Defined.

End StorageWitnesses.
